(** * Log analyzer: a shallow embedding of [logAnalyzer.ts]

    The development embeds the two exported functions of
    [log-analyzer-project/logAnalyzer.ts], [parseLogEntries] and
    [analyzeLogPatterns], together with the parts of the JavaScript
    runtime they call (numbers with [NaN], strings as sequences of code
    units, a backtracking matcher for the regular expression literal,
    the [Date] constructor on the strings that the pattern admits, with
    the time zone of the process, and [Array.prototype.sort] as V8 runs
    it), and the client class of [log-analyzer-project/api.test.ts], and
    proves the properties stated about them. *)

From Stdlib Require Import ZArith NArith QArith List Bool Lia.
From Stdlib Require Import Permutation Sorted.
From Stdlib Require Import Ascii.
From Stdlib Require String.
Import String.StringSyntax.
Import ListNotations.

Local Open Scope string_scope.
Local Open Scope Z_scope.

(* ================================================================== *)
(** * JavaScript numbers *)
(* ================================================================== *)

(** A number is a finite double, [NaN] or an infinity.  A finite double
    is the rational it denotes: the analyzer compares numbers, which is
    exact on doubles, and subtracts only time values, integers of
    milliseconds whose differences are exact as well (lemma
    [Date_new_range]).  The two zeros are one number. *)
Inductive number : Type :=
| Finite (q : Q)
| NaN
| PosInf
| NegInf.

(** An integer as a number. *)
Definition Int (z : Z) : number := Finite (inject_Z z).

(** [a - b]. *)
Definition num_sub (a b : number) : number :=
  match a, b with
  | NaN, _ | _, NaN => NaN
  | Finite x, Finite y => Finite (x - y)
  | PosInf, PosInf => NaN
  | NegInf, NegInf => NaN
  | PosInf, _ => PosInf
  | NegInf, _ => NegInf
  | Finite _, PosInf => NegInf
  | Finite _, NegInf => PosInf
  end.

(** [a <= b]: false as soon as one side is [NaN]. *)
Definition num_leb (a b : number) : bool :=
  match a, b with
  | NaN, _ | _, NaN => false
  | NegInf, _ => true
  | _, PosInf => true
  | Finite x, Finite y => Qle_bool x y
  | _, _ => false
  end.

(** [a >= b]. *)
Definition num_geb (a b : number) : bool := num_leb b a.

(** [a > b]: false as soon as one side is [NaN]. *)
Definition num_gtb (a b : number) : bool :=
  match a, b with
  | NaN, _ | _, NaN => false
  | Finite x, Finite y => negb (Qle_bool x y)
  | PosInf, PosInf => false
  | PosInf, _ => true
  | _, NegInf => match a with NegInf => false | _ => true end
  | _, _ => false
  end.

(** [a < b]. *)
Definition num_ltb (a b : number) : bool := num_gtb b a.

(* ================================================================== *)
(** * Strings *)
(* ================================================================== *)

(** A JavaScript string is a sequence of 16-bit code units. *)
Definition code_unit : Type := N.
Definition jsstring : Type := list code_unit.

(** String literals of the source, written as Rocq strings. *)
Definition js (s : String.string) : jsstring :=
  map N_of_ascii (String.list_ascii_of_string s).

Local Open Scope N_scope.

(** [\d] without the [u] flag: the ten ASCII digits. *)
Definition isDigit (c : code_unit) : bool := (48 <=? c) && (c <=? 57).

(** LineTerminator: LF, CR, LS, PS. *)
Definition isLineTerminator (c : code_unit) : bool :=
  (c =? 10) || (c =? 13) || (c =? 8232) || (c =? 8233).

(** [\s], which is also what [trim] strips: WhiteSpace and
    LineTerminator. *)
Definition isSpace (c : code_unit) : bool :=
  (c =? 9) || (c =? 10) || (c =? 11) || (c =? 12) || (c =? 13) || (c =? 32)
  || (c =? 160) || (c =? 5760) || ((8192 <=? c) && (c <=? 8202))
  || (c =? 8232) || (c =? 8233) || (c =? 8239) || (c =? 8287)
  || (c =? 12288) || (c =? 65279).

(** [\S]. *)
Definition isNonSpace (c : code_unit) : bool := negb (isSpace c).

(** [.] without the [s] flag: anything but a line terminator. *)
Definition isDot (c : code_unit) : bool := negb (isLineTerminator c).

(** [s.split(sep)] for a one-unit separator: never the empty array. *)
Fixpoint split (sep : code_unit) (s : jsstring) : list jsstring :=
  match s with
  | [] => [[]]
  | c :: s' =>
      if c =? sep then [] :: split sep s'
      else match split sep s' with
           | piece :: pieces => (c :: piece) :: pieces
           | [] => [[c]]
           end
  end.

Fixpoint dropWhile {A : Type} (p : A -> bool) (l : list A) : list A :=
  match l with
  | [] => []
  | x :: l' => if p x then dropWhile p l' else l
  end.

Fixpoint takeWhile {A : Type} (p : A -> bool) (l : list A) : list A :=
  match l with
  | [] => []
  | x :: l' => if p x then x :: takeWhile p l' else []
  end.

(** [s.trim()]. *)
Definition trim (s : jsstring) : jsstring :=
  rev (dropWhile isSpace (rev (dropWhile isSpace s))).

Definition is_empty (s : jsstring) : bool :=
  match s with [] => true | _ => false end.

(* ================================================================== *)
(** * Regular expressions *)
(* ================================================================== *)

(** The fragment of the regular expression syntax that [logRegex] is
    written in.  Quantifiers are greedy and apply to character classes;
    [Opt] is the greedy [(?: ... )?]. *)
Inductive regex : Type :=
| Assert_start
| Assert_end
| Char (c : code_unit)
| Atom (p : code_unit -> bool)
| Exactly (n : nat) (p : code_unit -> bool)
| Plus (p : code_unit -> bool)
| Star (p : code_unit -> bool)
| Seq (r1 r2 : regex)
| Group (i : nat) (r : regex)
| Opt (r : regex).

(** Capture groups: [None] is [undefined], a group that did not take
    part in the match. *)
Definition captures : Type := nat -> option jsstring.

Definition no_captures : captures := fun _ => None.

Definition set_capture (i : nat) (s : jsstring) (c : captures) : captures :=
  fun j => if Nat.eqb j i then Some s else c j.

(** The matcher is written with continuations, as the ECMAScript
    semantics of patterns is: a matcher takes the current position, the
    rest of the input and the captures so far, and a continuation that
    matches what follows; failure of the continuation makes a quantifier
    retry with one repetition less. *)
Fixpoint greedy (p : code_unit -> bool) (idx : nat) (rest : jsstring)
    (k : nat -> jsstring -> option captures) : option captures :=
  match rest with
  | c :: rest' =>
      if p c then
        match greedy p (S idx) rest' k with
        | Some r => Some r
        | None => k idx rest
        end
      else k idx rest
  | [] => k idx rest
  end.

Fixpoint exactly (n : nat) (p : code_unit -> bool) (idx : nat)
    (rest : jsstring) (k : nat -> jsstring -> option captures)
    : option captures :=
  match n with
  | O => k idx rest
  | S n' =>
      match rest with
      | c :: rest' => if p c then exactly n' p (S idx) rest' k else None
      | [] => None
      end
  end.

Fixpoint rmatch (r : regex) (idx : nat) (rest : jsstring) (caps : captures)
    (k : nat -> jsstring -> captures -> option captures) : option captures :=
  match r with
  | Assert_start => if Nat.eqb idx 0 then k idx rest caps else None
  | Assert_end => match rest with [] => k idx rest caps | _ :: _ => None end
  | Char c =>
      match rest with
      | c' :: rest' => if c' =? c then k (S idx) rest' caps else None
      | [] => None
      end
  | Atom p =>
      match rest with
      | c' :: rest' => if p c' then k (S idx) rest' caps else None
      | [] => None
      end
  | Exactly n p => exactly n p idx rest (fun i s => k i s caps)
  | Plus p =>
      match rest with
      | c' :: rest' =>
          if p c' then greedy p (S idx) rest' (fun i s => k i s caps)
          else None
      | [] => None
      end
  | Star p => greedy p idx rest (fun i s => k i s caps)
  | Seq r1 r2 => rmatch r1 idx rest caps (fun i s c => rmatch r2 i s c k)
  | Group n r1 =>
      rmatch r1 idx rest caps
        (fun i s c => k i s (set_capture n (firstn (i - idx) rest) c))
  | Opt r1 =>
      match rmatch r1 idx rest caps k with
      | Some res => Some res
      | None => k idx rest caps
      end
  end.

(** [RegExp.prototype.exec] of a pattern without the [g] and [y] flags:
    the match is attempted at index 0, then at every later index. *)
Fixpoint exec_from (r : regex) (idx : nat) (rest : jsstring)
    : option captures :=
  match rmatch (Group 0 r) idx rest no_captures (fun _ _ c => Some c) with
  | Some c => Some c
  | None =>
      match rest with
      | [] => None
      | _ :: rest' => exec_from r (S idx) rest'
      end
  end.

(** [s.match(r)] for a pattern without the [g] flag. *)
Definition string_match (s : jsstring) (r : regex) : option captures :=
  exec_from r 0 s.

Local Notation "r1 >> r2" := (Seq r1 r2) (at level 61, right associativity).

(** [\d{n}]. *)
Definition digits (n : nat) : regex := Exactly n isDigit.

(** The literal of the source: start of input; group 1, the timestamp,
    made of 4 digits, [-], 2 digits, [-], 2 digits, [T], 2 digits, [:],
    2 digits, [:], 2 digits, the unescaped [.] of the source (any code
    unit but a line terminator), 3 digits, [Z]; one or more [\s]; group
    2, one or more [\S]; optionally one or more [\s] followed by group
    3, any number of [.]; end of input. *)
Definition logRegex : regex :=
  Assert_start >>
  Group 1 (digits 4 >> Char 45 >> digits 2 >> Char 45 >> digits 2 >> Char 84 >>
           digits 2 >> Char 58 >> digits 2 >> Char 58 >> digits 2 >>
           Atom isDot >> digits 3 >> Char 90) >>
  Plus isSpace >>
  Group 2 (Plus isNonSpace) >>
  Opt (Plus isSpace >> Group 3 (Star isDot)) >>
  Assert_end.

Local Close Scope N_scope.


(* ================================================================== *)
(** * Completions *)
(* ================================================================== *)

(** How a call ends: with a value, with a thrown error, or not at all
    within the steps it was given.  The only error the analyzer could
    throw is the [TypeError] of reading a property of [undefined], which
    is what indexing an array out of its bounds and reading [.timestamp]
    of the result does. *)
Inductive Error : Type := TypeError.

Inductive Completion (A : Type) : Type :=
| Normal (a : A)
| Throw (e : Error)
| Unfinished.

Arguments Normal {A} a.
Arguments Throw {A} e.
Arguments Unfinished {A}.

Definition bind {A B : Type} (c : Completion A) (f : A -> Completion B)
    : Completion B :=
  match c with
  | Normal a => f a
  | Throw e => Throw e
  | Unfinished => Unfinished
  end.

Notation "x <- c1 ;; c2" := (bind c1 (fun x => c2))
  (at level 61, c1 at next level, right associativity).

(** [a[i]] followed by a property read: throws when [a[i]] is
    [undefined]. *)
Definition at_index {A : Type} (a : list A) (i : nat) : Completion A :=
  match nth_error a i with
  | Some x => Normal x
  | None => Throw TypeError
  end.

(* ================================================================== *)
(** * The API client of [api.test.ts] *)
(* ================================================================== *)

(** [MAX_RETRIES] and [RATE_LIMIT_WINDOW] (in seconds). *)
Definition MAX_RETRIES : nat := 3.
Definition RATE_LIMIT_WINDOW : Z := 60.

(** [UserRole], the keys of [ROLES]. *)
Inductive UserRole : Type := admin | editor | viewer.

(** A thrown value, or the reason of a rejected promise: an [Error]
    with its message, or the [TypeError] of reading a property of
    [null] or [undefined]. *)
Inductive Thrown : Type :=
| JsError (message : jsstring)
| JsTypeError.

(** How a promise of the HTTP client settles. *)
Inductive Settled (A : Type) : Type :=
| Fulfilled (value : A)
| Rejected (reason : Thrown).

Arguments Fulfilled {A} value.
Arguments Rejected {A} reason.

(** How a call of a method of the client ends. *)
Inductive Outcome (A : Type) : Type :=
| Returned (a : A)
| Threw (e : Thrown)
| OutOfSteps.

Arguments Returned {A} a.
Arguments Threw {A} e.
Arguments OutOfSteps {A}.

(** [a === b] on numbers. *)
Definition num_eqb (a b : number) : bool :=
  match a, b with
  | Finite x, Finite y => Qeq_bool x y
  | PosInf, PosInf => true
  | NegInf, NegInf => true
  | _, _ => false
  end.

(** [AxiosResponse]: the fields the client reads.  [Data] stands for the
    type [any] of the bodies. *)
Record AxiosResponse (Data : Type) : Type := mkResponse {
  status : number;
  response_data : Data
}.

Arguments status {Data} _.
Arguments response_data {Data} _.

(** The argument of [client.request]. *)
Record RequestConfig (Data : Type) : Type := mkConfig {
  method : jsstring;
  url : jsstring;
  data : option Data;
  headers : list (jsstring * jsstring)
}.

Arguments method {Data} _.
Arguments url {Data} _.
Arguments data {Data} _.
Arguments headers {Data} _.

(** What a call does to the world, in order: a [client.post], a
    [client.request], a [timersPromises.setTimeout]. *)
Inductive Effect (Data : Type) : Type :=
| Post (url : jsstring) (username password : jsstring) (role : UserRole)
| Request (config : RequestConfig Data)
| SetTimeout (ms : Z).

Arguments Post {Data} url username password role.
Arguments Request {Data} config.
Arguments SetTimeout {Data} ms.

(** A value used as a condition: [null], [undefined] and the empty
    string are falsy. *)
Definition truthy (token : option jsstring) : bool :=
  match token with
  | Some (_ :: _) => true
  | Some [] | None => false
  end.

(** [authenticate].  [reply] is how the promise of [client.post]
    settles.  [token_of] reads [response.data.token] from the body of
    the response: [None] when [response.data] is [null] or [undefined],
    where the read throws a [TypeError]; [Some None] when the token is
    [undefined] or [null]; [Some (Some s)] when it is the string [s]
    (the field [this.token] is declared [string | null]).  The read
    comes before the assignment to [this.token], so a throwing read
    leaves the field as it was.  The result is what the call did, the
    field [this.token] after the call, and how the call ended. *)
Definition authenticate {Data : Type}
    (token_of : Data -> option (option jsstring))
    (token : option jsstring) (username password : jsstring)
    (role : UserRole) (reply : Settled (AxiosResponse Data))
    : list (Effect Data) * option jsstring * Outcome jsstring :=
  let effects := [Post (js "/auth/login") username password role] in
  match reply with
  | Rejected reason => (effects, token, Threw reason)
  | Fulfilled response =>
      match token_of (response_data response) with
      | None => (effects, token, Threw JsTypeError)
      | Some token' =>
          match token' with
          | Some (c :: s) => (effects, token', Returned (c :: s))
          | Some [] | None =>
              (effects, token',
               Threw (JsError
                        (js "Authentication failed: No token received")))
          end
      end
  end.

(** The headers that [makeRequest] builds from [this.token]. *)
Definition request_headers (token : option jsstring)
    : list (jsstring * jsstring) :=
  match token with
  | Some (c :: s) => [(js "Authorization", js "Bearer " ++ c :: s)]
  | Some [] | None => []
  end.

(** The retry loop of [makeRequest], from [attempt] on.  [replies k] is
    how the promise of the call's request number [k] settles.  The
    timers are called without an abort signal, so their promises are
    fulfilled. *)
Fixpoint request_loop {Data : Type} (fuel : nat)
    (config : RequestConfig Data)
    (replies : nat -> Settled (AxiosResponse Data)) (attempt : nat)
    : list (Effect Data) * Outcome (AxiosResponse Data) :=
  if Nat.ltb attempt MAX_RETRIES then
    match fuel with
    | O => ([], OutOfSteps)
    | S fuel' =>
        match replies attempt with
        | Fulfilled response =>
            if num_eqb (status response) (Finite 429) then
              if Nat.eqb attempt (MAX_RETRIES - 1) then
                ([Request config], Returned response)
              else
                let (effects, outcome) :=
                  request_loop fuel' config replies (S attempt) in
                (Request config
                 :: SetTimeout (RATE_LIMIT_WINDOW * 1000) :: effects,
                 outcome)
            else ([Request config], Returned response)
        | Rejected error =>
            if Nat.eqb attempt (MAX_RETRIES - 1) then
              ([Request config], Threw error)
            else
              let (effects, outcome) :=
                request_loop fuel' config replies (S attempt) in
              (Request config :: SetTimeout 1000 :: effects, outcome)
        end
    end
  else ([], Threw (JsError (js "Max retries exceeded"))).

(** [makeRequest]. *)
Definition makeRequest {Data : Type} (token : option jsstring)
    (method endpoint : jsstring) (data : option Data)
    (replies : nat -> Settled (AxiosResponse Data))
    : list (Effect Data) * Outcome (AxiosResponse Data) :=
  let headers := request_headers token in
  request_loop MAX_RETRIES
    {| method := method; url := endpoint; data := data; headers := headers |}
    replies 0.

(** A reply that ends the retries: a response that is not a rate
    limit. *)
Definition is_final {Data : Type} (reply : Settled (AxiosResponse Data))
    : bool :=
  match reply with
  | Fulfilled response => negb (num_eqb (status response) (Finite 429))
  | Rejected _ => false
  end.

(** The number of requests that a call makes. *)
Definition requests_made {Data : Type}
    (replies : nat -> Settled (AxiosResponse Data)) : nat :=
  if is_final (replies 0%nat) then 1
  else if is_final (replies 1%nat) then 2
  else 3.

(** A settled promise as the outcome of the call that awaits it. *)
Definition settle {A : Type} (reply : Settled A) : Outcome A :=
  match reply with
  | Fulfilled value => Returned value
  | Rejected reason => Threw reason
  end.

(** The wait after a reply that does not end the call. *)
Definition delay_after {Data : Type} (reply : Settled (AxiosResponse Data))
    : Z :=
  match reply with
  | Fulfilled _ => RATE_LIMIT_WINDOW * 1000
  | Rejected _ => 1000
  end.

Definition is_request {Data : Type} (e : Effect Data) : bool :=
  match e with Request _ => true | _ => false end.

(** The milliseconds of the timers in a list of effects. *)
Definition timeouts {Data : Type} (effects : list (Effect Data)) : list Z :=
  flat_map (fun e => match e with SetTimeout ms => [ms] | _ => [] end)
    effects.

(* ================================================================== *)
(** * Dates *)
(* ================================================================== *)

(** A [Date] object, by its time value: milliseconds since the epoch,
    or [None] for the [NaN] of an invalid date. *)
Definition Date : Type := option Z.

(** [d.getTime()]. *)
Definition getTime (d : Date) : number :=
  match d with
  | Some t => Int t
  | None => NaN
  end.

Definition digit_value (c : code_unit) : option Z :=
  if isDigit c then Some (Z.of_N c - 48) else None.

Fixpoint decimal_from (acc : Z) (s : jsstring) : option Z :=
  match s with
  | [] => Some acc
  | c :: s' =>
      match digit_value c with
      | Some d => decimal_from (10 * acc + d) s'
      | None => None
      end
  end.

(** The value of a non-empty run of decimal digits. *)
Definition decimal (s : jsstring) : option Z :=
  match s with
  | [] => None
  | _ :: _ => decimal_from 0 s
  end.

(** [s.slice(from, to)] for indices inside the string. *)
Definition slice (s : jsstring) (from to : nat) : jsstring :=
  firstn (to - from) (skipn from s).

(** ECMA-262, "Time Values and Time Range" and the abstract operations
    [MakeDay], [MakeTime], [MakeDate] and [TimeClip], on integers. *)
Definition DayFromYear (y : Z) : Z :=
  365 * (y - 1970) + (y - 1969) / 4 - (y - 1901) / 100 + (y - 1601) / 400.

Definition InLeapYear (y : Z) : bool :=
  ((y mod 4 =? 0) && negb (y mod 100 =? 0)) || (y mod 400 =? 0).

Definition DaysBeforeMonth (leap : bool) (m : Z) : Z :=
  nth (Z.to_nat m) [0; 31; 59; 90; 120; 151; 181; 212; 243; 273; 304; 334] 0
  + (if leap && (2 <=? m) then 1 else 0).

Definition MakeDay (year month date : Z) : Z :=
  let ym := year + month / 12 in
  let mn := month mod 12 in
  DayFromYear ym + DaysBeforeMonth (InLeapYear ym) mn + date - 1.

Definition MakeTime (hour min sec ms : Z) : Z :=
  hour * 3600000 + min * 60000 + sec * 1000 + ms.

Definition MakeDate (day time : Z) : Z := day * 86400000 + time.

Definition TimeClip (t : Z) : Date :=
  if Z.abs t >? 8640000000000000 then None else Some t.

(** The time zone of the process, as ECMA-262's [LocalTZA(t, false)]:
    the offset of local time from UTC, in milliseconds, at the local
    time value [t]. *)
Definition TimeZone : Type := Z -> Z.

(** Two zones: UTC, and one hour east of it all the year round. *)
Definition UTC : TimeZone := fun _ => 0.

Definition UTC_plus_1 : TimeZone := fun _ => 3600000.

(** [UTC(t)] of ECMA-262: the time value of the local time [t]. *)
Definition UTC_of_local (zone : TimeZone) (t : Z) : Z := t - zone t.

(** Everything from here on runs in one process, whose time zone is
    [LocalTZA]. *)
Section Process.

Variable LocalTZA : TimeZone.

(** [new Date(s)] for a string [s] of the 24 code units that group 1 of
    [logRegex] holds: four digits, [-], two digits, [-], two digits,
    [T], two digits, [:], two digits, [:], two digits, any code unit
    but a line terminator, three digits, [Z].  The fields are read at
    their positions; an out-of-range field gives [NaN] (a day of month
    is accepted up to 31 and carried into the next month, as V8 does;
    hour 24 with everything after it zero is the end of the day).

    - With [.] at index 19 the string is in the Date Time String Format
      of ECMA-262, [YYYY-MM-DDTHH:mm:ss.sssZ], and denotes a UTC time.
    - With U+0000 at index 19, V8 takes the string to end there: it
      reads [YYYY-MM-DDTHH:mm:ss], a date-time without offset, which
      ECMA-262 makes a local time, so the result depends on the time
      zone of the process.
    - With any other code unit at index 19, V8 answers [NaN].

    On strings of another shape, which [parseLogEntries] never passes,
    the model answers [NaN]. *)
Definition Date_new (s : jsstring) : Date :=
  let lit (i : nat) (c : code_unit) := N.eqb (nth i s 0%N) c in
  if Nat.eqb (length s) 24 && lit 4%nat 45%N && lit 7%nat 45%N
     && lit 10%nat 84%N && lit 13%nat 58%N && lit 16%nat 58%N
     && lit 23%nat 90%N
  then
    match decimal (slice s 0 4), decimal (slice s 5 7), decimal (slice s 8 10),
          decimal (slice s 11 13), decimal (slice s 14 16),
          decimal (slice s 17 19), decimal (slice s 20 23) with
    | Some year, Some month, Some day, Some hour, Some min, Some sec, Some ms =>
        let fields_ok (ms_read : Z) :=
          (1 <=? month) && (month <=? 12) && (1 <=? day) && (day <=? 31)
          && (((hour <=? 23) && (min <=? 59) && (sec <=? 59))
              || ((hour =? 24) && (min =? 0) && (sec =? 0) && (ms_read =? 0))) in
        if lit 19%nat 46%N then
          if fields_ok ms
          then TimeClip (MakeDate (MakeDay year (month - 1) day)
                                  (MakeTime hour min sec ms))
          else None
        else if lit 19%nat 0%N then
          if fields_ok 0
          then TimeClip (UTC_of_local LocalTZA
                           (MakeDate (MakeDay year (month - 1) day)
                                     (MakeTime hour min sec 0)))
          else None
        else None
    | _, _, _, _, _, _, _ => None
    end
  else None.

(* ================================================================== *)
(** * The analyzer *)
(* ================================================================== *)

(** [{ timestamp: Date, event: string }] *)
Record LogEntry : Type := mkLogEntry {
  timestamp : Date;
  event : jsstring
}.

(** [{ events: string[], startTime: Date, endTime: Date }] *)
Record Pattern : Type := mkPattern {
  events : list jsstring;
  startTime : Date;
  endTime : Date
}.

(** One iteration of the loop over the lines in [parseLogEntries]:
    [entries] after the line has been processed.  Groups 1 and 2 take
    part in every match of [logRegex] (lemma [logRegex_groups]), so the
    last branch is never taken. *)
Definition parse_line (entries : list LogEntry) (line : jsstring)
    : list LogEntry :=
  match string_match line logRegex with
  | Some m =>
      match m 1%nat, m 2%nat with
      | Some timestampStr, Some event =>
          let details := m 3%nat in
          entries ++
          [ {| timestamp := Date_new timestampStr;
               event := match details with
                        | Some (c :: d) => event ++ [32%N] ++ c :: d
                        | Some [] | None => event
                        end |} ]
      | _, _ => entries
      end
  | None => entries
  end.

Definition parseLogEntries (logContent : jsstring) : list LogEntry :=
  let lines :=
    filter (fun line => negb (is_empty (trim line))) (split 10%N logContent) in
  fold_left parse_line lines [].

(** [(a, b) => a.timestamp.getTime() - b.timestamp.getTime()] *)
Definition compareFn (a b : LogEntry) : number :=
  num_sub (getTime (timestamp a)) (getTime (timestamp b)).

(** [Array.prototype.sort] with a comparator, as V8 (the engine of
    Node.js) runs it.  The sort first copies the elements into a work
    array and calls the comparator through [CallCompare], where a
    result that is [NaN] counts as [+0]. *)
Definition CallCompare {A : Type} (cmp : A -> A -> number) (x y : A)
    : number :=
  match cmp x y with
  | NaN => Finite 0
  | v => v
  end.

(** The rest of a run of [CountAndMakeRun]: the elements of [l] taken
    for as long as each compares with the one before it as the first
    pair did ([order < 0] in a descending run, [order >= 0] in an
    ascending one), and the elements left over. *)
Fixpoint run_from {A : Type} (cmp : A -> A -> number) (isDescending : bool)
    (previousElement : A) (l : list A) : list A * list A :=
  match l with
  | [] => ([], [])
  | currentElement :: l' =>
      let order := CallCompare cmp currentElement previousElement in
      if Bool.eqb (num_ltb order (Finite 0)) isDescending then
        let (run, rest) := run_from cmp isDescending currentElement l' in
        (currentElement :: run, rest)
      else ([], l)
  end.

(** [CountAndMakeRun] from index 0: the longest run at the start of
    the work array, reversed in place when it is descending, and the
    elements behind it. *)
Definition CountAndMakeRun {A : Type} (cmp : A -> A -> number)
    (workArray : list A) : list A * list A :=
  match workArray with
  | elementHigh :: (elementLow :: _) as tail =>
      let order := CallCompare cmp elementLow elementHigh in
      let isDescending := num_ltb order (Finite 0) in
      let (run, rest) := run_from cmp isDescending elementHigh tail in
      (if isDescending then rev (elementHigh :: run) else elementHigh :: run,
       rest)
  | _ => (workArray, [])
  end.

(** The binary search of [BinaryInsertionSort]: where [pivot] goes in
    the sorted part [workArray].  The loop runs while [left < right];
    [fuel] bounds its iterations. *)
Fixpoint binary_search {A : Type} (fuel : nat) (cmp : A -> A -> number)
    (workArray : list A) (pivot : A) (left right : nat) : nat :=
  if Nat.ltb left right then
    match fuel with
    | O => left
    | S fuel' =>
        let mid := (left + (right - left) / 2)%nat in
        match nth_error workArray mid with
        | Some element =>
            let order := CallCompare cmp pivot element in
            if num_ltb order (Finite 0)
            then binary_search fuel' cmp workArray pivot left mid
            else binary_search fuel' cmp workArray pivot (S mid) right
        | None => left
        end
    end
  else left.

(** [BinaryInsertionSort]: the elements of [rest], one after the
    other, are put into the sorted part at the index that the binary
    search gives. *)
Fixpoint BinaryInsertionSort {A : Type} (cmp : A -> A -> number)
    (sorted rest : list A) : list A :=
  match rest with
  | [] => sorted
  | pivot :: rest' =>
      let left :=
        binary_search (length sorted) cmp sorted pivot 0 (length sorted) in
      BinaryInsertionSort cmp
        (firstn left sorted ++ pivot :: skipn left sorted) rest'
  end.

(** The sort of an array of fewer than 64 elements: the first run is
    made, and the elements behind it are inserted into it.  V8 sorts
    a longer array in stretches of 32 to 64 elements, each in this
    way, and merges the stretches; the model applies the procedure for
    short arrays at every length.

    - When every date is valid the comparator is consistent, and
      every sort that conforms to ECMA-262 returns the same array, the
      stable sorted one (theorem [sort_unique_on_valid_dates]): there
      the model is the result of V8 and of any other engine, at every
      length.
    - When some date is invalid the comparator is not consistent and
      ECMA-262 leaves the order to the engine.  There the model is
      the result of V8 for fewer than 64 records; the array need not
      be in ascending order, nor do records of the same instant keep
      their order. *)
Definition sort {A : Type} (cmp : A -> A -> number) (l : list A) : list A :=
  let (run, rest) := CountAndMakeRun cmp l in
  BinaryInsertionSort cmp run rest.

(** The inner loop, [for (let j = ...; j < logEntries.length; j++)]:
    the completion carries [currentSequence] at the loop's exit.  [fuel]
    bounds the number of iterations. *)
Fixpoint inner_loop (fuel : nat) (logEntries : list LogEntry)
    (startTime : Date) (timeWindowMs : number) (j : nat)
    (currentSequence : list LogEntry) : Completion (list LogEntry) :=
  if Nat.ltb j (length logEntries) then
    match fuel with
    | O => Unfinished
    | S fuel' =>
        entry_j <- at_index logEntries j ;;
        let timeDiff :=
          num_sub (getTime (timestamp entry_j)) (getTime startTime) in
        if num_leb timeDiff timeWindowMs then
          inner_loop fuel' logEntries startTime timeWindowMs (S j)
            (currentSequence ++ [entry_j])
        else Normal currentSequence
    end
  else Normal currentSequence.

(** The outer loop, [for (let i = ...; i < logEntries.length; i++)]:
    the completion carries [patterns] at the loop's exit. *)
Fixpoint outer_loop (fuel : nat) (logEntries : list LogEntry)
    (timeWindowMs minSequenceLength : number) (i : nat)
    (patterns : list Pattern) : Completion (list Pattern) :=
  if Nat.ltb i (length logEntries) then
    match fuel with
    | O => Unfinished
    | S fuel' =>
        entry_i <- at_index logEntries i ;;
        let startTime := timestamp entry_i in
        currentSequence <-
          inner_loop (length logEntries) logEntries startTime timeWindowMs
            (S i) [entry_i] ;;
        patterns' <-
          (if num_geb (Int (Z.of_nat (length currentSequence)))
                minSequenceLength
           then
             first <- at_index currentSequence 0 ;;
             last <- at_index currentSequence (length currentSequence - 1) ;;
             Normal (patterns ++
                     [ {| events := map event currentSequence;
                          startTime := timestamp first;
                          endTime := timestamp last |} ])
           else Normal patterns) ;;
        outer_loop fuel' logEntries timeWindowMs minSequenceLength (S i)
          patterns'
    end
  else Normal patterns.

Definition analyzeLogPatterns (logContent : jsstring)
    (timeWindowMs minSequenceLength : number) : Completion (list Pattern) :=
  let logEntries := sort compareFn (parseLogEntries logContent) in
  outer_loop (length logEntries) logEntries timeWindowMs minSequenceLength
    0 [].

(** The call with [minSequenceLength] left out: its default is 2. *)
Definition analyzeLogPatterns_default (logContent : jsstring)
    (timeWindowMs : number) : Completion (list Pattern) :=
  analyzeLogPatterns logContent timeWindowMs (Finite 2).

(** The sample log of the test suite: six lines joined by line feeds. *)
Definition sampleLog : jsstring :=
  js "2023-04-15T14:32:15.123Z LOGIN User logged in" ++ [10%N] ++
  js "2023-04-15T14:32:17.456Z NAVIGATE User navigated to dashboard" ++ [10%N] ++
  js "2023-04-15T14:32:19.789Z CLICK User clicked on settings" ++ [10%N] ++
  js "2023-04-15T14:32:45.123Z LOGOUT User logged out" ++ [10%N] ++
  js "2023-04-15T14:35:15.123Z LOGIN Another user logged in" ++ [10%N] ++
  js "2023-04-15T14:35:18.456Z ERROR Failed to load dashboard".

(* ================================================================== *)
(** * The detection as the specification words it *)
(* ================================================================== *)

(** These definitions follow the specification's description of the
    detector, not the source; the theorems below compare them with
    [analyzeLogPatterns]. *)

(** Record [r] is within the window of [anchor]:
    [timestamp r - timestamp anchor <= timeWindowMs]. *)
Definition in_window (timeWindowMs : number) (anchor r : LogEntry) : bool :=
  num_leb (num_sub (getTime (timestamp r)) (getTime (timestamp anchor)))
    timeWindowMs.

(** The run anchored at index [i]: record [i], then the records that
    follow it for as long as they are within the window. *)
Definition run_at (sorted : list LogEntry) (timeWindowMs : number) (i : nat)
    : list LogEntry :=
  match nth_error sorted i with
  | Some anchor =>
      anchor :: takeWhile (in_window timeWindowMs anchor) (skipn (S i) sorted)
  | None => []
  end.

(** The Pattern Window of a run. *)
Definition window_of (anchor : LogEntry) (run : list LogEntry) : Pattern :=
  {| events := map event run;
     startTime := timestamp anchor;
     endTime := timestamp (last run anchor) |}.

Definition window_at (sorted : list LogEntry) (timeWindowMs : number)
    (i : nat) : option Pattern :=
  match nth_error sorted i with
  | Some anchor => Some (window_of anchor (run_at sorted timeWindowMs i))
  | None => None
  end.

(** What anchor [i] contributes to the output: its window if the run is
    long enough, nothing otherwise. *)
Definition emitted_at (sorted : list LogEntry)
    (timeWindowMs minSequenceLength : number) (i : nat) : list Pattern :=
  match window_at sorted timeWindowMs i with
  | Some p =>
      if num_geb (Int (Z.of_nat (length (events p)))) minSequenceLength
      then [p] else []
  | None => []
  end.

Definition detect_spec (sorted : list LogEntry)
    (timeWindowMs minSequenceLength : number) : list Pattern :=
  flat_map (emitted_at sorted timeWindowMs minSequenceLength)
    (seq 0 (length sorted)).

(** [a] may stand before [b] in the order of a comparator: the
    comparator does not ask for [a] behind [b]. *)
Definition may_precede {A : Type} (cmp : A -> A -> number) (a b : A) : Prop :=
  num_gtb (cmp a b) (Finite 0) = false.

(** Ascending order of time.  On valid dates this is
    [a.timestamp <= b.timestamp]. *)
Definition not_after (a b : LogEntry) : Prop := may_precede compareFn a b.

(** The time values of the entries with a valid date, in order. *)
Definition valid_times (l : list LogEntry) : list Z :=
  flat_map (fun e => match timestamp e with
                     | Some t => [t]
                     | None => []
                     end) l.



(** The windows of the sample log for a window of ten seconds and a
    minimum length of 2: the first one, and all of them. *)
Definition sampleLog_pattern_0 : Pattern :=
  {| events := [js "LOGIN User logged in";
                js "NAVIGATE User navigated to dashboard";
                js "CLICK User clicked on settings"];
     startTime := Some 1681569135123;
     endTime := Some 1681569139789 |}.

Definition sampleLog_patterns : list Pattern :=
  [ sampleLog_pattern_0;
    {| events := [js "NAVIGATE User navigated to dashboard";
                  js "CLICK User clicked on settings"];
       startTime := Some 1681569137456;
       endTime := Some 1681569139789 |};
    {| events := [js "LOGIN Another user logged in";
                  js "ERROR Failed to load dashboard"];
       startTime := Some 1681569315123;
       endTime := Some 1681569318456 |} ].

(** The date of the window is valid. *)
Definition isValidDate (d : Date) : Prop := d <> None.

(** [endTime - startTime <= timeWindowMs], as JavaScript evaluates it. *)
Definition within_duration (timeWindowMs : number) (p : Pattern) : bool :=
  num_leb (num_sub (getTime (endTime p)) (getTime (startTime p)))
    timeWindowMs.

(** [events.length >= minSequenceLength]. *)
Definition long_enough (minSequenceLength : number) (p : Pattern) : bool :=
  num_geb (Int (Z.of_nat (length (events p)))) minSequenceLength.

(** The window of a run of one record. *)
Definition singleton_window (e : LogEntry) : Pattern :=
  {| events := [event e]; startTime := timestamp e; endTime := timestamp e |}.

(** Anchor [i] emits a window. *)
Definition emits (sorted : list LogEntry) (w m : number) (i : nat) : bool :=
  match emitted_at sorted w m i with
  | [] => false
  | _ :: _ => true
  end.

(** The anchors that emit a window, in increasing order. *)
Definition emitting_anchors (sorted : list LogEntry) (w m : number)
    : list nat :=
  filter (emits sorted w m) (seq 0 (length sorted)).

(** Two records at the same instant, then a third one later. *)
Definition twinLog : jsstring :=
  js "2023-04-15T14:32:15.123Z LOGIN" ++ [10%N] ++
  js "2023-04-15T14:32:15.123Z NAVIGATE" ++ [10%N] ++
  js "2023-04-15T14:32:15.124Z CLICK".

(** Entry [e] has the valid time value [t]. *)
Definition has_time (t : Z) (e : LogEntry) : bool :=
  match timestamp e with
  | Some x => x =? t
  | None => false
  end.



(** Two lines, the first with U+0000 where the format has the [.]
    before the milliseconds. *)
Definition zonedLog : jsstring :=
  js "2023-04-15T14:32:15" ++ [0%N] ++ js "123Z LOGIN" ++ [10%N] ++
  js "2023-04-15T14:32:20.000Z CLICK".

(** What ECMA-262 asks of [sort] for a consistent comparator: [s] is
    [l] rearranged in ascending order, entries that compare equal
    keeping the order they have in [l]. *)
Definition stable_sort_of (l s : list LogEntry) : Prop :=
  Permutation l s
  /\ Sorted not_after s
  /\ forall t, filter (has_time t) s = filter (has_time t) l.

(* ================================================================== *)
(** * The lines that [logRegex] matches, described directly *)
(* ================================================================== *)

(** The class of a literal character. *)
Definition is_char (c : code_unit) : code_unit -> bool := fun c' => N.eqb c' c.

(** The 24 positions of the timestamp token, as [logRegex] reads them. *)
Definition timestamp_classes : list (code_unit -> bool) :=
  [isDigit; isDigit; isDigit; isDigit; is_char 45%N;
   isDigit; isDigit; is_char 45%N;
   isDigit; isDigit; is_char 84%N;
   isDigit; isDigit; is_char 58%N;
   isDigit; isDigit; is_char 58%N;
   isDigit; isDigit; isDot;
   isDigit; isDigit; isDigit; is_char 90%N].

(** [s] begins with one code unit of each class, in order. *)
Fixpoint starts_with (classes : list (code_unit -> bool)) (s : jsstring)
    : bool :=
  match classes with
  | [] => true
  | p :: classes' =>
      match s with
      | c :: s' => p c && starts_with classes' s'
      | [] => false
      end
  end.

(** The classes of a pattern made of single characters only. *)
Fixpoint classes_of (r : regex) : option (list (code_unit -> bool)) :=
  match r with
  | Char c => Some [is_char c]
  | Atom p => Some [p]
  | Exactly n p => Some (repeat p n)
  | Seq r1 r2 =>
      match classes_of r1, classes_of r2 with
      | Some a, Some b => Some (a ++ b)
      | _, _ => None
      end
  | _ => None
  end.

(** The parts of a line: what follows the first 24 code units, the event
    token after the whitespace, what follows the token, and the detail
    after the whitespace that follows the token. *)
Definition line_after (line : jsstring) : jsstring := skipn 24 line.

Definition line_token (line : jsstring) : jsstring :=
  takeWhile isNonSpace (dropWhile isSpace (line_after line)).

Definition line_tail (line : jsstring) : jsstring :=
  dropWhile isNonSpace (dropWhile isSpace (line_after line)).

Definition line_details (line : jsstring) : jsstring :=
  dropWhile isSpace (line_tail line).

(** A line is well-formed when it begins with a timestamp token, goes
    on with whitespace and a non-empty event token, and what follows the
    token and its whitespace has no line terminator. *)
Definition well_formed_line (line : jsstring) : bool :=
  starts_with timestamp_classes line
  && negb (is_empty (takeWhile isSpace (line_after line)))
  && negb (is_empty (line_token line))
  && forallb isDot (line_details line).

(** The record of a well-formed line. *)
Definition line_record (line : jsstring) : option LogEntry :=
  if well_formed_line line then
    Some {| timestamp := Date_new (firstn 24 line);
            event := match line_details line with
                     | [] => line_token line
                     | _ :: _ => line_token line ++ [32%N] ++ line_details line
                     end |}
  else None.

Definition records_of (line : jsstring) : list LogEntry :=
  match line_record line with
  | Some e => [e]
  | None => []
  end.

(** The start of [p] is a valid date not later than the start of [q]. *)
Definition starts_before (p q : Pattern) : Prop :=
  exists s t, startTime p = Some s /\ startTime q = Some t /\ s <= t.

(** The sample log with its lines in reverse order. *)
Definition sampleLog_reversed : jsstring :=
  js "2023-04-15T14:35:18.456Z ERROR Failed to load dashboard" ++ [10%N] ++
  js "2023-04-15T14:35:15.123Z LOGIN Another user logged in" ++ [10%N] ++
  js "2023-04-15T14:32:45.123Z LOGOUT User logged out" ++ [10%N] ++
  js "2023-04-15T14:32:19.789Z CLICK User clicked on settings" ++ [10%N] ++
  js "2023-04-15T14:32:17.456Z NAVIGATE User navigated to dashboard" ++ [10%N] ++
  js "2023-04-15T14:32:15.123Z LOGIN User logged in".

(* ================================================================== *)
(** * Lists *)
(* ================================================================== *)

Lemma skipn_nth_error {A : Type} (l : list A) :
  forall i x, nth_error l i = Some x -> skipn i l = x :: skipn (S i) l.
Proof.
  induction l as [|y l IH]; intros [|i] x H; simpl in *; try discriminate.
  - now inversion H.
  - now apply IH.
Qed.

Lemma last_default {A : Type} (l : list A) :
  forall a d d', last (a :: l) d = last (a :: l) d'.
Proof.
  induction l as [|b l IH]; intros a d d'; [reflexivity|].
  change (last (b :: l) d = last (b :: l) d'). apply IH.
Qed.

Lemma last_In {A : Type} (l : list A) :
  forall a d, In (last (a :: l) d) (a :: l).
Proof.
  induction l as [|b l IH]; intros a d; [now left|].
  right. change (In (last (b :: l) d) (b :: l)). apply IH.
Qed.

Lemma nth_error_last {A : Type} (l : list A) :
  forall a, nth_error (a :: l) (length (a :: l) - 1) = Some (last (a :: l) a).
Proof.
  induction l as [|b l IH]; intros a; [reflexivity|].
  specialize (IH b).
  replace (length (a :: b :: l) - 1)%nat with (S (length (b :: l) - 1))
    by (simpl; lia).
  change (nth_error (b :: l) (length (b :: l) - 1)
          = Some (last (b :: l) a)).
  rewrite IH. f_equal. apply last_default.
Qed.

Lemma takeWhile_ext {A : Type} (p q : A -> bool) (l : list A) :
  (forall x, In x l -> p x = q x) -> takeWhile p l = takeWhile q l.
Proof.
  induction l as [|x l IH]; intros H; simpl; [reflexivity|].
  rewrite <- (H x (or_introl eq_refl)).
  destruct (p x); [|reflexivity].
  f_equal. apply IH. intros y Hy. apply H. now right.
Qed.

Lemma takeWhile_Forall {A : Type} (p : A -> bool) (l : list A) :
  Forall (fun x => p x = true) (takeWhile p l).
Proof.
  induction l as [|x l IH]; simpl; [constructor|].
  destruct (p x) eqn:E; constructor; assumption.
Qed.

(* ================================================================== *)
(** * Numbers and the comparator *)
(* ================================================================== *)

Lemma num_sub_Int (a b : Z) : num_sub (Int a) (Int b) = Int (a - b).
Proof.
  unfold Int, num_sub, Qminus, Qplus, Qopp, inject_Z. cbn [Qnum Qden].
  do 2 f_equal. lia.
Qed.

Lemma num_leb_Int (a b : Z) : num_leb (Int a) (Int b) = (a <=? b).
Proof.
  unfold Int, num_leb, Qle_bool, inject_Z. cbn [Qnum Qden].
  now rewrite !Z.mul_1_r.
Qed.

Lemma num_gtb_Int (a b : Z) : num_gtb (Int a) (Int b) = (b <? a).
Proof.
  unfold Int, num_gtb, Qle_bool, inject_Z. cbn [Qnum Qden].
  rewrite !Z.mul_1_r. symmetry. apply Z.ltb_antisym.
Qed.

Lemma compareFn_valid (a b : LogEntry) (x y : Z) :
  timestamp a = Some x -> timestamp b = Some y ->
  num_gtb (compareFn a b) (Finite 0) = (y <? x).
Proof.
  intros Ha Hb. unfold compareFn. rewrite Ha, Hb. cbn [getTime].
  rewrite num_sub_Int. change (Finite 0) with (Int 0).
  rewrite num_gtb_Int.
  destruct (Z.ltb_spec 0 (x - y)), (Z.ltb_spec y x); lia || reflexivity.
Qed.

Lemma compareFn_invalid (a b : LogEntry) :
  timestamp a = None \/ timestamp b = None ->
  num_gtb (compareFn a b) (Finite 0) = false.
Proof.
  unfold compareFn. intros [H|H]; rewrite H; cbn [getTime].
  - reflexivity.
  - now destruct (getTime (timestamp a)).
Qed.

Lemma compareFn_antisym (a b : LogEntry) :
  num_gtb (compareFn a b) (Finite 0) = true ->
  num_ltb (compareFn b a) (Finite 0) = true.
Proof.
  unfold num_ltb.
  destruct (timestamp a) as [x|] eqn:Ha;
    [|now rewrite compareFn_invalid by now left].
  destruct (timestamp b) as [y|] eqn:Hb;
    [|now rewrite compareFn_invalid by now right].
  rewrite (compareFn_valid a b x y) by assumption.
  intros H. apply Z.ltb_lt in H.
  unfold compareFn. rewrite Ha, Hb. cbn [getTime].
  rewrite num_sub_Int. change (Finite 0) with (Int 0).
  rewrite num_gtb_Int. apply Z.ltb_lt. lia.
Qed.

Lemma not_after_valid (a b : LogEntry) (x y : Z) :
  timestamp a = Some x -> timestamp b = Some y -> not_after a b -> x <= y.
Proof.
  unfold not_after, may_precede. intros Ha Hb.
  rewrite (compareFn_valid a b x y) by assumption.
  intros H. apply Z.ltb_ge in H. exact H.
Qed.

Lemma in_window_valid (w : number) (a r : LogEntry) :
  in_window w a r = true ->
  exists x y, timestamp a = Some x /\ timestamp r = Some y
              /\ num_leb (Int (y - x)) w = true.
Proof.
  unfold in_window.
  destruct (timestamp a) as [x|], (timestamp r) as [y|]; cbn [getTime];
    try discriminate.
  rewrite num_sub_Int. intros H. now exists x, y.
Qed.

(* ================================================================== *)
(** * Sorting *)
(* ================================================================== *)

Lemma negative_may_precede {A : Type} (cmp : A -> A -> number) (a b : A) :
  num_ltb (CallCompare cmp a b) (Finite 0) = true -> may_precede cmp a b.
Proof.
  unfold may_precede, CallCompare, num_ltb, num_gtb.
  destruct (cmp a b) as [q| | |]; try discriminate; try reflexivity.
  unfold Qle_bool. cbn [Qnum Qden].
  destruct (Z.leb_spec (0 * Zpos (Qden q)) (Qnum q * 1)),
           (Z.leb_spec (Qnum q * 1) (0 * Zpos (Qden q)));
    (discriminate || reflexivity || lia).
Qed.

Lemma Sorted_snoc {A : Type} (R : A -> A -> Prop) (x : A) :
  forall l,
    Sorted R l -> (forall l' y, l = l' ++ [y] -> R y x) ->
    Sorted R (l ++ [x]).
Proof.
  induction l as [|a l IH]; intros Hs Hlast; cbn [app].
  - repeat constructor.
  - apply Sorted_inv in Hs. destruct Hs as [Hs Hd].
    constructor.
    + apply IH; [exact Hs|].
      intros l' y E. apply (Hlast (a :: l') y). now rewrite E.
    + destruct l as [|b l]; cbn [app].
      * constructor. now apply (Hlast [] a).
      * constructor. now apply HdRel_inv in Hd.
Qed.

Lemma Sorted_rev {A : Type} (R : A -> A -> Prop) (l : list A) :
  Sorted (fun a b => R b a) l -> Sorted R (rev l).
Proof.
  induction 1 as [|a l Hs IH Hd]; cbn [rev]; [constructor|].
  apply Sorted_snoc; [exact IH|].
  intros l' y E. destruct l as [|b l].
  - destruct l'; discriminate E.
  - apply HdRel_inv in Hd. cbn [rev] in E.
    apply app_inj_tail in E. destruct E as [_ <-]. exact Hd.
Qed.

(** Putting [x] at index [p] of a sorted list, between two elements
    that admit it, leaves the list sorted. *)
Lemma Sorted_insert_at {A : Type} (R : A -> A -> Prop) (x : A) :
  forall l p,
    Sorted R l ->
    (p = 0%nat \/ exists y, nth_error l (p - 1) = Some y /\ R y x) ->
    ((length l <= p)%nat \/ exists z, nth_error l p = Some z /\ R x z) ->
    Sorted R (firstn p l ++ x :: skipn p l).
Proof.
  induction l as [|h t IH]; intros p Hs Hleft Hright.
  - rewrite firstn_nil, skipn_nil. repeat constructor.
  - apply Sorted_inv in Hs. destruct Hs as [Hs Hd].
    destruct p as [|p]; cbn [firstn skipn app].
    + constructor; [now constructor|].
      destruct Hright as [Hlen|(z & Hz & Hxz)]; [cbn in Hlen; lia|].
      injection Hz as <-. now constructor.
    + constructor.
      * apply IH; [exact Hs| |].
        -- destruct p as [|p]; [now left|right].
           destruct Hleft as [E|(y & Hy & Hyx)]; [discriminate|].
           exists y. split; [|exact Hyx].
           replace (S (S p) - 1)%nat with (S p) in Hy by lia.
           replace (S p - 1)%nat with p by lia. exact Hy.
        -- destruct Hright as [Hlen|(z & Hz & Hxz)].
           ++ left. cbn [length] in Hlen. lia.
           ++ right. now exists z.
      * destruct p as [|p]; cbn [firstn app].
        -- destruct Hleft as [E|(y & Hy & Hyx)]; [discriminate|].
           injection Hy as <-. now constructor.
        -- destruct t as [|b t]; cbn [firstn app].
           ++ destruct Hleft as [E|(y & Hy & _)]; [discriminate|].
              cbn in Hy. destruct p; discriminate.
           ++ constructor. now apply HdRel_inv in Hd.
Qed.

Section Sorting.

Context {A : Type}.
Variable cmp : A -> A -> number.

(** A comparator that asks for [a] behind [b] asks for [b] before
    [a]. *)
Hypothesis cmp_antisym :
  forall a b,
    num_gtb (cmp a b) (Finite 0) = true ->
    num_ltb (cmp b a) (Finite 0) = true.

Lemma CallCompare_negative (a b : A) :
  num_ltb (CallCompare cmp a b) (Finite 0) = num_ltb (cmp a b) (Finite 0).
Proof. unfold CallCompare. now destruct (cmp a b). Qed.

Lemma nonnegative_may_precede (a b : A) :
  num_ltb (CallCompare cmp a b) (Finite 0) = false -> may_precede cmp b a.
Proof.
  rewrite CallCompare_negative. unfold may_precede. intros H.
  destruct (num_gtb (cmp b a) (Finite 0)) eqn:E; [|reflexivity].
  apply cmp_antisym in E. congruence.
Qed.

Lemma run_from_app (isDescending : bool) :
  forall l previousElement run rest,
    run_from cmp isDescending previousElement l = (run, rest) ->
    l = run ++ rest.
Proof.
  induction l as [|c l IH]; intros prev run rest H; cbn [run_from] in H.
  - now injection H as <- <-.
  - destruct (Bool.eqb _ isDescending).
    + destruct (run_from cmp isDescending c l) as [run' rest'] eqn:E.
      injection H as <- <-. cbn [app]. f_equal. now apply (IH c).
    + now injection H as <- <-.
Qed.

Lemma CountAndMakeRun_perm (l run rest : list A) :
  CountAndMakeRun cmp l = (run, rest) -> Permutation l (run ++ rest).
Proof.
  unfold CountAndMakeRun. destruct l as [|x0 [|x1 l]].
  - intros H. now injection H as <- <-.
  - intros H. now injection H as <- <-.
  - cbv zeta.
    set (isDescending := num_ltb (CallCompare cmp x1 x0) (Finite 0)).
    destruct (run_from cmp isDescending x0 (x1 :: l)) as [run' rest'] eqn:E.
    apply run_from_app in E. intros H. injection H as <- <-.
    rewrite E.
    destruct isDescending.
    + change (Permutation ((x0 :: run') ++ rest')
                (rev (x0 :: run') ++ rest')).
      apply Permutation_app_tail, Permutation_rev.
    + reflexivity.
Qed.

Lemma BinaryInsertionSort_perm :
  forall rest sorted,
    Permutation (sorted ++ rest) (BinaryInsertionSort cmp sorted rest).
Proof.
  induction rest as [|pivot rest IH]; intros sorted;
    cbn [BinaryInsertionSort].
  - now rewrite app_nil_r.
  - rewrite <- IH.
    set (left := binary_search _ cmp sorted pivot 0 _).
    rewrite <- (firstn_skipn left sorted) at 1.
    rewrite <- !app_assoc. cbn [app].
    apply Permutation_app_head. symmetry. apply Permutation_middle.
Qed.

Lemma sort_perm (l : list A) : Permutation l (sort cmp l).
Proof.
  unfold sort. destruct (CountAndMakeRun cmp l) as [run rest] eqn:E.
  apply CountAndMakeRun_perm in E. rewrite E.
  apply BinaryInsertionSort_perm.
Qed.

(** The run of [run_from] is in the order of its direction. *)
Lemma run_from_sorted (isDescending : bool) :
  forall l previousElement run rest,
    run_from cmp isDescending previousElement l = (run, rest) ->
    Sorted (fun a b => num_ltb (CallCompare cmp b a) (Finite 0)
                       = isDescending)
      (previousElement :: run).
Proof.
  induction l as [|c l IH]; intros prev run rest H; cbn [run_from] in H.
  - injection H as <- <-. repeat constructor.
  - destruct (Bool.eqb _ isDescending) eqn:Ec.
    + destruct (run_from cmp isDescending c l) as [run' rest'] eqn:E.
      injection H as <- <-.
      constructor; [now apply (IH c _ rest')|].
      constructor. now apply Bool.eqb_prop in Ec.
    + injection H as <- <-. repeat constructor.
Qed.

Lemma CountAndMakeRun_sorted (l run rest : list A) :
  CountAndMakeRun cmp l = (run, rest) -> Sorted (may_precede cmp) run.
Proof.
  unfold CountAndMakeRun. destruct l as [|x0 [|x1 l]].
  - intros H. injection H as <- <-. constructor.
  - intros H. injection H as <- <-. repeat constructor.
  - cbv zeta.
    set (isDescending := num_ltb (CallCompare cmp x1 x0) (Finite 0)).
    destruct (run_from cmp isDescending x0 (x1 :: l)) as [run' rest'] eqn:E.
    apply run_from_sorted in E. intros H. injection H as <- <-.
    destruct isDescending.
    + change (Sorted (may_precede cmp) (rev (x0 :: run'))).
      apply Sorted_rev.
      eapply Sorted_ind with (P := Sorted _); [constructor| |exact E].
      intros a l0 _ IH Hd. constructor; [exact IH|].
      destruct Hd as [|b l1 Hb]; constructor.
      now apply negative_may_precede.
    + eapply Sorted_ind with (P := Sorted _); [constructor| |exact E].
      intros a l0 _ IH Hd. constructor; [exact IH|].
      destruct Hd as [|b l1 Hb]; constructor.
      now apply nonnegative_may_precede.
Qed.

(** The index that the binary search returns lies between an element
    that [pivot] is not before and an element that it is before. *)
Lemma binary_search_spec (workArray : list A) (pivot : A) :
  forall fuel left right,
    (right - left <= fuel)%nat -> (left <= right <= length workArray)%nat ->
    (left = 0%nat
     \/ exists y, nth_error workArray (left - 1) = Some y
                  /\ num_ltb (CallCompare cmp pivot y) (Finite 0) = false) ->
    ((length workArray <= right)%nat
     \/ exists z, nth_error workArray right = Some z
                  /\ num_ltb (CallCompare cmp pivot z) (Finite 0) = true) ->
    let p := binary_search fuel cmp workArray pivot left right in
    (p <= length workArray)%nat
    /\ (p = 0%nat
        \/ exists y, nth_error workArray (p - 1) = Some y
                     /\ num_ltb (CallCompare cmp pivot y) (Finite 0) = false)
    /\ ((length workArray <= p)%nat
        \/ exists z, nth_error workArray p = Some z
                     /\ num_ltb (CallCompare cmp pivot z) (Finite 0) = true).
Proof.
  induction fuel as [|fuel IH]; intros left right Hfuel Hle Hl Hr;
    cbn [binary_search]; destruct (Nat.ltb_spec left right) as [Hlt|Hge].
  - lia.
  - assert (left = right) by lia. subst right. cbn zeta.
    split; [lia|]. now split.
  - cbv zeta.
    assert (Hmid : (left <= left + (right - left) / 2 < right)%nat).
    { split; [lia|].
      assert ((right - left) / 2 < right - left)%nat
        by (apply Nat.div_lt; lia).
      lia. }
    set (mid := (left + (right - left) / 2)%nat) in *.
    destruct (nth_error workArray mid) as [element|] eqn:Emid.
    + destruct (num_ltb (CallCompare cmp pivot element) (Finite 0)) eqn:Eo.
      * apply IH; [lia|lia|exact Hl|].
        right. now exists element.
      * apply IH; [lia|lia| |exact Hr].
        right. exists element. split; [|exact Eo].
        now replace (S mid - 1)%nat with mid by lia.
    + apply nth_error_None in Emid. lia.
  - assert (left = right) by lia. subst right. cbn zeta.
    split; [lia|]. now split.
Qed.

Lemma binary_insert_sorted (sorted : list A) (pivot : A) :
  Sorted (may_precede cmp) sorted ->
  let left :=
    binary_search (length sorted) cmp sorted pivot 0 (length sorted) in
  Sorted (may_precede cmp) (firstn left sorted ++ pivot :: skipn left sorted).
Proof.
  intros Hs left.
  destruct (binary_search_spec sorted pivot (length sorted) 0 (length sorted))
    as (_ & Hl & Hr); [lia|lia|now left|now left|].
  fold left in Hl, Hr.
  apply Sorted_insert_at; [exact Hs| |].
  - destruct Hl as [E|(y & Hy & Hyx)]; [now left|right].
    exists y. split; [exact Hy|]. now apply nonnegative_may_precede.
  - destruct Hr as [E|(z & Hz & Hxz)]; [now left|right].
    exists z. split; [exact Hz|]. now apply negative_may_precede.
Qed.

Lemma BinaryInsertionSort_sorted :
  forall rest sorted,
    Sorted (may_precede cmp) sorted ->
    Sorted (may_precede cmp) (BinaryInsertionSort cmp sorted rest).
Proof.
  induction rest as [|pivot rest IH]; intros sorted Hs;
    cbn [BinaryInsertionSort]; [exact Hs|].
  apply IH. now apply binary_insert_sorted.
Qed.

Lemma sort_sorted (l : list A) : Sorted (may_precede cmp) (sort cmp l).
Proof.
  unfold sort. destruct (CountAndMakeRun cmp l) as [run rest] eqn:E.
  apply BinaryInsertionSort_sorted. now apply (CountAndMakeRun_sorted l _ rest).
Qed.

End Sorting.

Lemma sorted_suffix {A : Type} (R : A -> A -> Prop) (l : list A) :
  forall i, Sorted R l -> Sorted R (skipn i l).
Proof.
  induction l as [|x l IH]; intros [|i] H; simpl; try assumption.
  apply IH. now inversion H.
Qed.

(* ================================================================== *)
(** * The loops *)
(* ================================================================== *)

Lemma at_index_Some {A : Type} (l : list A) (i : nat) (x : A) :
  nth_error l i = Some x -> at_index l i = Normal x.
Proof. unfold at_index. now intros ->. Qed.

Lemma nth_error_lt {A : Type} (l : list A) (i : nat) :
  (i < length l)%nat -> exists x, nth_error l i = Some x.
Proof.
  intros H. destruct (nth_error l i) as [x|] eqn:E; [now exists x|].
  apply nth_error_None in E. lia.
Qed.

(** The inner loop started at [j] appends to [currentSequence] the
    longest prefix of the records from [j] on that are within the
    window, and ends normally. *)
Lemma inner_loop_spec (logEntries : list LogEntry) (startTime : Date)
    (w : number) :
  forall fuel j cur,
    (length logEntries - j <= fuel)%nat ->
    inner_loop fuel logEntries startTime w j cur
    = Normal (cur ++ takeWhile
                (fun r => num_leb (num_sub (getTime (timestamp r))
                                           (getTime startTime)) w)
                (skipn j logEntries)).
Proof.
  induction fuel as [|fuel IH]; intros j cur Hf; simpl;
    destruct (Nat.ltb_spec j (length logEntries)) as [Hj|Hj];
    try lia;
    try (rewrite skipn_all2 by lia; simpl; now rewrite app_nil_r).
  destruct (nth_error_lt _ _ Hj) as [e He].
  rewrite (at_index_Some _ _ _ He). simpl.
  rewrite (skipn_nth_error _ _ _ He). simpl.
  destruct (num_leb _ w).
  - rewrite IH by lia. now rewrite <- app_assoc.
  - now rewrite app_nil_r.
Qed.

Lemma run_at_length (sorted : list LogEntry) (w : number) (i : nat)
    (a : LogEntry) :
  nth_error sorted i = Some a ->
  run_at sorted w i
  = a :: takeWhile (in_window w a) (skipn (S i) sorted).
Proof. unfold run_at. now intros ->. Qed.

(** One pass of the outer loop's body for anchor [i]. *)
Lemma outer_loop_spec (logEntries : list LogEntry) (w m : number) :
  forall fuel i patterns,
    (length logEntries - i <= fuel)%nat ->
    outer_loop fuel logEntries w m i patterns
    = Normal (patterns ++
              flat_map (emitted_at logEntries w m)
                (seq i (length logEntries - i))).
Proof.
  induction fuel as [|fuel IH]; intros i patterns Hf; cbn [outer_loop];
    destruct (Nat.ltb_spec i (length logEntries)) as [Hi|Hi];
    try lia;
    try (replace (length logEntries - i)%nat with 0%nat by lia;
         simpl; now rewrite app_nil_r).
  destruct (nth_error_lt _ _ Hi) as [a Ha].
  rewrite (at_index_Some _ _ _ Ha). cbn [bind].
  rewrite inner_loop_spec by lia. cbn [bind app].
  replace (length logEntries - i)%nat with (S (length logEntries - S i))
    by lia.
  cbn [seq flat_map].
  unfold emitted_at at 1, window_at. rewrite Ha.
  rewrite (run_at_length _ _ _ _ Ha).
  fold (in_window w a).
  set (run := a :: takeWhile (in_window w a) (skipn (S i) logEntries)).
  unfold window_of at 1. cbn [events].
  rewrite length_map.
  destruct (num_geb (Int (Z.of_nat (length run))) m).
  - assert (H0 : at_index run 0 = Normal a) by reflexivity.
    rewrite H0. cbn [bind].
    assert (Hl : at_index run (length run - 1) = Normal (last run a))
      by (apply at_index_Some, nth_error_last).
    rewrite Hl. cbn [bind].
    rewrite IH by lia. rewrite <- app_assoc. reflexivity.
  - cbn [bind app]. now rewrite IH by lia.
Qed.

(** [analyzeLogPatterns] always ends normally, with the windows of the
    specification's detector on the sorted records. *)
Lemma analyzeLogPatterns_spec (logContent : jsstring) (w m : number) :
  analyzeLogPatterns logContent w m
  = Normal (detect_spec (sort compareFn (parseLogEntries logContent)) w m).
Proof.
  unfold analyzeLogPatterns.
  rewrite outer_loop_spec by lia.
  now rewrite Nat.sub_0_r.
Qed.

(* ================================================================== *)
(** * Sort, runs and windows *)
(* ================================================================== *)


(* ================================================================== *)
(** * Bounds on the emitted windows *)
(* ================================================================== *)

Lemma in_detect_spec (sorted : list LogEntry) (w m : number) (p : Pattern) :
  In p (detect_spec sorted w m) ->
  exists i a,
    nth_error sorted i = Some a
    /\ p = window_of a (run_at sorted w i)
    /\ long_enough m p = true.
Proof.
  unfold detect_spec. rewrite in_flat_map. intros (i & _ & Hp).
  unfold emitted_at, window_at in Hp.
  destruct (nth_error sorted i) as [a|] eqn:Ha; [|contradiction].
  destruct (num_geb _ m) eqn:Hm; [|contradiction].
  destruct Hp as [<-|[]]. now exists i, a.
Qed.

Lemma num_sub_self (d : Date) :
  isValidDate d -> num_sub (getTime d) (getTime d) = Finite 0.
Proof.
  destruct d as [t|]; intros H; [|now elim H].
  cbn [getTime]. rewrite num_sub_Int, Z.sub_diag. reflexivity.
Qed.

(** C2, as the code has it.  For every input, every [timeWindowMs >= 0]
    and every [minSequenceLength], every emitted window has
    [events.length >= minSequenceLength], and every emitted window whose
    start is a valid date has [endTime - startTime <= timeWindowMs]. *)
Theorem emitted_window_bounds
    (logContent : jsstring) (timeWindowMs minSequenceLength : number)
    (patterns : list Pattern) (p : Pattern) :
  num_leb (Finite 0) timeWindowMs = true ->
  analyzeLogPatterns logContent timeWindowMs minSequenceLength
  = Normal patterns ->
  In p patterns ->
  long_enough minSequenceLength p = true
  /\ (isValidDate (startTime p) -> within_duration timeWindowMs p = true).
Proof.
  intros Hw Hrun Hp. rewrite analyzeLogPatterns_spec in Hrun.
  injection Hrun as <-.
  apply in_detect_spec in Hp. destruct Hp as (i & a & Ha & -> & Hlen).
  split; [exact Hlen|]. intros Hvalid.
  rewrite (run_at_length _ _ _ _ Ha).
  unfold within_duration, window_of. cbn [startTime endTime] in *.
  set (tw := takeWhile (in_window timeWindowMs a) _).
  destruct (last_In tw a a) as [E|E].
  - rewrite <- E. now rewrite num_sub_self.
  - pose proof (takeWhile_Forall (in_window timeWindowMs a)
                  (skipn (S i) (sort compareFn (parseLogEntries logContent))))
      as HF.
    rewrite Forall_forall in HF. exact (HF _ E).
Qed.

(* ================================================================== *)
(** * The timestamp pattern *)
(* ================================================================== *)

(** C3 at a failing input.  A line whose timestamp has an [X] where the
    format has the [.] before the milliseconds matches [logRegex] and
    yields a record. *)
Theorem parseLogEntries_accepts_other_separator :
  string_match (js "2023-04-15T14:32:15X123Z LOGIN") logRegex <> None
  /\ map event (parseLogEntries (js "2023-04-15T14:32:15X123Z LOGIN"))
     = [js "LOGIN"]
  /\ map event (parseLogEntries (js "2023-04-15T14:32:15 123Z LOGIN"))
     = [js "LOGIN"]
  /\ parseLogEntries (js "2023-04-15T14:32:15Z LOGIN") = []
  /\ parseLogEntries (js "2023-04-15T14:32:15.123+01:00 LOGIN") = [].
Proof. vm_compute. repeat split; try reflexivity. discriminate. Qed.

(* ================================================================== *)
(** * Small minimum lengths *)
(* ================================================================== *)

Lemma num_leb_weaken (m : number) (a b : Z) :
  num_leb m (Int a) = true -> a <= b -> num_leb m (Int b) = true.
Proof.
  destruct m as [q| | |]; simpl; try discriminate; try reflexivity.
  intros H Hab. apply Qle_bool_iff in H. apply Qle_bool_iff.
  apply Qle_trans with (inject_Z a); [exact H|].
  now rewrite <- Zle_Qle.
Qed.

Lemma window_at_Some (sorted : list LogEntry) (w : number) (i : nat)
    (a : LogEntry) :
  nth_error sorted i = Some a ->
  window_at sorted w i = Some (window_of a (run_at sorted w i)).
Proof. unfold window_at. now intros ->. Qed.

Lemma run_at_nonempty (sorted : list LogEntry) (w : number) (i : nat)
    (a : LogEntry) :
  nth_error sorted i = Some a -> (1 <= length (run_at sorted w i))%nat.
Proof. intros Ha. rewrite (run_at_length _ _ _ _ Ha). simpl. lia. Qed.

(** With a minimum length of at most 1 every anchor emits its window. *)
Lemma emitted_at_small (sorted : list LogEntry) (w m : number) (i : nat)
    (a : LogEntry) :
  num_leb m (Finite 1) = true ->
  nth_error sorted i = Some a ->
  emitted_at sorted w m i = [window_of a (run_at sorted w i)].
Proof.
  intros Hm Ha. unfold emitted_at. rewrite (window_at_Some _ _ _ _ Ha).
  unfold window_of at 1. cbn [events]. rewrite length_map.
  unfold num_geb. rewrite (num_leb_weaken m 1); [reflexivity|exact Hm|].
  pose proof (run_at_nonempty sorted w i a Ha). lia.
Qed.

Lemma detect_spec_small (sorted : list LogEntry) (w m : number) :
  num_leb m (Finite 1) = true ->
  forall l, (forall i, In i l -> (i < length sorted)%nat) ->
    map Some (flat_map (emitted_at sorted w m) l)
    = map (window_at sorted w) l.
Proof.
  intros Hm. induction l as [|i l IH]; intros Hl; [reflexivity|].
  destruct (nth_error_lt sorted i (Hl i (or_introl eq_refl))) as [a Ha].
  cbn [flat_map map]. rewrite (emitted_at_small _ _ _ _ _ Hm Ha).
  rewrite (window_at_Some _ _ _ _ Ha). cbn [app map]. f_equal.
  apply IH. intros j Hj. apply Hl. now right.
Qed.

Lemma detect_spec_small_all (sorted : list LogEntry) (w m : number) :
  num_leb m (Finite 1) = true ->
  map Some (detect_spec sorted w m)
  = map (window_at sorted w) (seq 0 (length sorted)).
Proof.
  intros Hm. apply detect_spec_small; [exact Hm|].
  intros i Hi. apply in_seq in Hi. lia.
Qed.

Lemma map_Some_inj {A : Type} (l l' : list A) :
  map Some l = map Some l' -> l = l'.
Proof.
  revert l'. induction l as [|x l IH]; intros [|y l'] H; simpl in H;
    try discriminate; [reflexivity|].
  injection H as -> H. f_equal. now apply IH.
Qed.

(** C4, as the code has it.  For every input and [timeWindowMs], a call
    with [minSequenceLength] 0 or negative does not fail: it returns a
    result list, the same as a call with [minSequenceLength = 1]. *)
Theorem nonpositive_minimum_returns_list
    (logContent : jsstring) (timeWindowMs minSequenceLength : number) :
  num_leb minSequenceLength (Finite 0) = true ->
  exists patterns,
    analyzeLogPatterns logContent timeWindowMs minSequenceLength
    = Normal patterns
    /\ analyzeLogPatterns logContent timeWindowMs (Finite 1)
       = Normal patterns.
Proof.
  intros Hm. rewrite !analyzeLogPatterns_spec.
  eexists. split; [reflexivity|]. f_equal. apply map_Some_inj.
  rewrite !detect_spec_small_all; try reflexivity.
  now apply (num_leb_weaken _ 0 1).
Qed.

(** C9.  For every input and every [timeWindowMs], when
    [minSequenceLength] is 1, 0 or negative the call returns normally
    with exactly one window per parsed record: the window of the run
    anchored at each index of the sorted sequence, in index order.
    Where that run is the anchor alone the window is a singleton, with
    one event and [startTime] equal to [endTime]. *)
Theorem small_minimum_one_window_per_record
    (logContent : jsstring) (timeWindowMs minSequenceLength : number) :
  num_leb minSequenceLength (Finite 1) = true ->
  let sorted := sort compareFn (parseLogEntries logContent) in
  exists patterns,
    analyzeLogPatterns logContent timeWindowMs minSequenceLength
    = Normal patterns
    /\ length patterns = length (parseLogEntries logContent)
    /\ map Some patterns
       = map (window_at sorted timeWindowMs) (seq 0 (length sorted))
    /\ (forall i a,
          nth_error sorted i = Some a ->
          run_at sorted timeWindowMs i = [a] ->
          nth_error patterns i = Some (singleton_window a)).
Proof.
  intros Hm sorted. rewrite analyzeLogPatterns_spec. fold sorted.
  exists (detect_spec sorted timeWindowMs minSequenceLength).
  pose proof (detect_spec_small_all sorted timeWindowMs _ Hm) as Hall.
  split; [reflexivity|]. split; [|split; [exact Hall|]].
  - rewrite <- (length_map Some), Hall, length_map, length_seq.
    symmetry. apply Permutation_length, sort_perm.
  - intros i a Ha Hrun.
    assert (Hi : (i < length sorted)%nat)
      by (apply nth_error_Some; rewrite Ha; discriminate).
    apply (f_equal (fun l => nth_error l i)) in Hall.
    rewrite !nth_error_map, nth_error_seq in Hall.
    apply Nat.ltb_lt in Hi. rewrite Hi in Hall. cbn [option_map] in Hall.
    rewrite Nat.add_0_l, (window_at_Some _ _ _ _ Ha), Hrun in Hall.
    destruct (nth_error _ i) as [p|]; [|discriminate].
    cbn [option_map] in Hall. injection Hall as ->. reflexivity.
Qed.

(* ================================================================== *)
(** * The sample log *)
(* ================================================================== *)

(** C5.  On the six-line sample log with a window of 10000 ms and a
    minimum length of 2, the result has (first) a window anchored at
    14:32:15.123 whose events contain the LOGIN and the NAVIGATE event
    and not the LOGOUT event of 14:32:45.123; with a minimum length of 3
    every returned window has at least 3 events and none is anchored at
    14:35:15.123. *)
Theorem sampleLog_windows :
  (exists patterns p,
     analyzeLogPatterns sampleLog (Finite 10000) (Finite 2) = Normal patterns
     /\ hd_error patterns = Some p
     /\ startTime p = Date_new (js "2023-04-15T14:32:15.123Z")
     /\ In (js "LOGIN User logged in") (events p)
     /\ In (js "NAVIGATE User navigated to dashboard") (events p)
     /\ ~ In (js "LOGOUT User logged out") (events p))
  /\ (exists patterns,
        analyzeLogPatterns sampleLog (Finite 10000) (Finite 3)
        = Normal patterns
        /\ Forall (fun p => (3 <= length (events p))%nat) patterns
        /\ Forall (fun p => startTime p
                            <> Date_new (js "2023-04-15T14:35:15.123Z"))
             patterns).
Proof.
  split.
  - exists sampleLog_patterns, sampleLog_pattern_0.
    split; [vm_compute; reflexivity|]. split; [reflexivity|].
    split; [vm_compute; reflexivity|].
    split; [left; reflexivity|].
    split; [right; left; reflexivity|].
    vm_compute. intros [H|[H|[H|[]]]]; discriminate H.
  - exists [sampleLog_pattern_0].
    split; [vm_compute; reflexivity|].
    split; repeat constructor. vm_compute. discriminate.
Qed.

(* ================================================================== *)
(** * A window of zero milliseconds *)
(* ================================================================== *)

Lemma in_window_same_anchor (w : number) (a b r : LogEntry) :
  timestamp b = timestamp a -> in_window w a r = in_window w b r.
Proof. unfold in_window. now intros ->. Qed.

(** In ascending order, the records within zero milliseconds of the
    anchor have the anchor's time. *)
Lemma zero_window_same_time :
  forall l a, Sorted not_after (a :: l) ->
    forall r, In r (takeWhile (in_window (Finite 0) a) l) ->
      timestamp r = timestamp a.
Proof.
  induction l as [|b l IH]; intros a Hs r Hr; simpl in Hr; [contradiction|].
  destruct (in_window (Finite 0) a b) eqn:E; [|contradiction].
  apply Sorted_inv in Hs. destruct Hs as [Hs Hd]. apply HdRel_inv in Hd.
  destruct (in_window_valid _ _ _ E) as (x & y & Hx & Hy & Hle).
  change (Finite 0) with (Int 0) in Hle. rewrite num_leb_Int in Hle.
  apply Z.leb_le in Hle.
  pose proof (not_after_valid a b x y Hx Hy Hd) as Hxy.
  assert (Hba : timestamp b = timestamp a)
    by (rewrite Hx, Hy; f_equal; lia).
  destruct Hr as [<-|Hr]; [exact Hba|].
  rewrite <- Hba. apply (IH b Hs).
  rewrite <- (takeWhile_ext (in_window (Finite 0) a)); [exact Hr|].
  intros z _. now apply in_window_same_anchor.
Qed.

Lemma sorted_from_anchor (sorted : list LogEntry) (i : nat) (a : LogEntry) :
  Sorted not_after sorted -> nth_error sorted i = Some a ->
  Sorted not_after (a :: skipn (S i) sorted).
Proof.
  intros Hs Ha. rewrite <- (skipn_nth_error _ _ _ Ha).
  now apply sorted_suffix.
Qed.

Lemma zero_window_run (sorted : list LogEntry) (i : nat) (a : LogEntry) :
  Sorted not_after sorted -> nth_error sorted i = Some a ->
  Forall (fun r => timestamp r = timestamp a) (run_at sorted (Finite 0) i).
Proof.
  intros Hs Ha. rewrite (run_at_length _ _ _ _ Ha).
  constructor; [reflexivity|]. apply Forall_forall.
  apply zero_window_same_time. now apply sorted_from_anchor.
Qed.

Lemma valid_times_app (l l' : list LogEntry) :
  valid_times (l ++ l') = valid_times l ++ valid_times l'.
Proof. apply flat_map_app. Qed.

(** Without two equal valid time values, every run of a zero window is
    its anchor alone. *)
Lemma zero_window_singleton (sorted : list LogEntry) (i : nat)
    (a : LogEntry) :
  Sorted not_after sorted -> NoDup (valid_times sorted) ->
  nth_error sorted i = Some a ->
  run_at sorted (Finite 0) i = [a].
Proof.
  intros Hs Hnd Ha. rewrite (run_at_length _ _ _ _ Ha).
  pose proof (zero_window_same_time _ _ (sorted_from_anchor _ _ _ Hs Ha))
    as Hsame.
  assert (Hsplit : sorted = firstn i sorted ++ a :: skipn (S i) sorted).
  { rewrite <- (skipn_nth_error _ _ _ Ha). symmetry. apply firstn_skipn. }
  destruct (skipn (S i) sorted) as [|b l]; [reflexivity|].
  cbn [takeWhile] in *.
  destruct (in_window (Finite 0) a b) eqn:E; [|reflexivity].
  exfalso.
  specialize (Hsame b (or_introl eq_refl)).
  destruct (in_window_valid _ _ _ E) as (x & y & Hx & Hy & _).
  rewrite Hsplit, valid_times_app in Hnd.
  change (a :: b :: l) with ([a] ++ b :: l) in Hnd.
  rewrite valid_times_app in Hnd.
  unfold valid_times at 2 in Hnd. simpl in Hnd. rewrite Hx in Hnd.
  simpl in Hnd. apply NoDup_remove_2 in Hnd. apply Hnd.
  apply in_or_app. right. unfold valid_times. simpl.
  rewrite Hsame, Hx. now left.
Qed.

Lemma flat_map_nil {A B : Type} (f : A -> list B) (l : list A) :
  (forall x, In x l -> f x = []) -> flat_map f l = [].
Proof.
  induction l as [|x l IH]; intros H; simpl; [reflexivity|].
  rewrite (H x (or_introl eq_refl)). apply IH.
  intros y Hy. apply H. now right.
Qed.

Lemma num_geb_one_two (m : number) :
  num_leb (Finite 2) m = true -> num_geb (Finite 1) m = false.
Proof.
  destruct m as [q| | |]; simpl; try discriminate; try reflexivity.
  intros H. apply Qle_bool_iff in H.
  destruct (Qle_bool q 1) eqn:E; [|reflexivity].
  apply Qle_bool_iff in E. pose proof (Qle_trans _ _ _ H E) as Hc.
  now elim Hc.
Qed.

Lemma sorted_entries (logContent : jsstring) :
  Sorted not_after (sort compareFn (parseLogEntries logContent)).
Proof. apply sort_sorted. apply compareFn_antisym. Qed.

(** C6.  With [timeWindowMs = 0] every emitted window is the window of a
    run whose records all have the anchor's timestamp, so its end is its
    start; and when no two parsed records have the same valid time value
    and [minSequenceLength >= 2], the result is the empty list. *)
Theorem zero_window_identical_timestamps
    (logContent : jsstring) (minSequenceLength : number) :
  let sorted := sort compareFn (parseLogEntries logContent) in
  (forall patterns p,
     analyzeLogPatterns logContent (Finite 0) minSequenceLength
     = Normal patterns ->
     In p patterns ->
     exists i a,
       nth_error sorted i = Some a
       /\ p = window_of a (run_at sorted (Finite 0) i)
       /\ Forall (fun r => timestamp r = timestamp a)
            (run_at sorted (Finite 0) i)
       /\ endTime p = startTime p)
  /\ (NoDup (valid_times (parseLogEntries logContent)) ->
      num_leb (Finite 2) minSequenceLength = true ->
      analyzeLogPatterns logContent (Finite 0) minSequenceLength
      = Normal []).
Proof.
  intros sorted. pose proof (sorted_entries logContent) as Hs.
  fold sorted in Hs. split.
  - intros patterns p Hrun Hp. rewrite analyzeLogPatterns_spec in Hrun.
    injection Hrun as <-. apply in_detect_spec in Hp.
    destruct Hp as (i & a & Ha & -> & _). exists i, a.
    pose proof (zero_window_run sorted i a Hs Ha) as Hsame.
    repeat split; try assumption.
    unfold window_of. cbn [startTime endTime].
    rewrite Forall_forall in Hsame. apply Hsame.
    unfold sorted. rewrite (run_at_length _ _ _ _ Ha). apply last_In.
  - intros Hnd Hm. rewrite analyzeLogPatterns_spec. f_equal.
    fold sorted. apply flat_map_nil. intros i Hi.
    apply in_seq in Hi.
    assert (Hlt : (i < length sorted)%nat) by lia.
    destruct (nth_error_lt sorted i Hlt) as [a Ha].
    unfold emitted_at. rewrite (window_at_Some _ _ _ _ Ha).
    rewrite (zero_window_singleton sorted i a); try assumption.
    + cbn [window_of events map length]. now rewrite num_geb_one_two.
    + eapply Permutation_NoDup; [|exact Hnd].
      unfold valid_times. apply Permutation_flat_map. apply sort_perm.
Qed.

(* ================================================================== *)
(** * The empty log *)
(* ================================================================== *)

(** C7.  On the empty content [parseLogEntries] returns the empty
    sequence and [analyzeLogPatterns] returns the empty list, without an
    error, for every [timeWindowMs] and [minSequenceLength >= 1]. *)
Theorem empty_log (timeWindowMs minSequenceLength : number) :
  num_leb (Finite 1) minSequenceLength = true ->
  parseLogEntries [] = []
  /\ analyzeLogPatterns [] timeWindowMs minSequenceLength = Normal [].
Proof. intros _. split; reflexivity. Qed.

(* ================================================================== *)
(** * Matches of the pattern *)
(* ================================================================== *)








(* ================================================================== *)
(** * Totality *)
(* ================================================================== *)


(* ================================================================== *)
(** * The anchors of the output *)
(* ================================================================== *)

Lemma StronglySorted_filter {A : Type} (R : A -> A -> Prop)
    (f : A -> bool) (l : list A) :
  StronglySorted R l -> StronglySorted R (filter f l).
Proof.
  induction 1 as [|x l Hs IH Hx]; simpl; [constructor|].
  destruct (f x); [|assumption].
  constructor; [assumption|].
  rewrite Forall_forall in *. intros y Hy.
  apply filter_In in Hy. now apply Hx.
Qed.

Lemma StronglySorted_seq (len : nat) :
  forall start, StronglySorted lt (seq start len).
Proof.
  induction len as [|len IH]; intros start; simpl; constructor.
  - apply IH.
  - apply Forall_forall. intros y Hy. apply in_seq in Hy. lia.
Qed.

Lemma detect_spec_anchors (sorted : list LogEntry) (w m : number) :
  forall l,
    map Some (flat_map (emitted_at sorted w m) l)
    = map (window_at sorted w) (filter (emits sorted w m) l).
Proof.
  induction l as [|i l IH]; [reflexivity|].
  cbn [flat_map filter]. rewrite map_app, IH.
  assert (H : emitted_at sorted w m i = []
              \/ exists p, emitted_at sorted w m i = [p]
                           /\ window_at sorted w i = Some p).
  { unfold emitted_at.
    destruct (window_at sorted w i) as [p|]; [|now left].
    destruct (num_geb _ m); [right; now exists p|now left]. }
  destruct H as [E|(p & E & Hp)].
  - assert (He : emits sorted w m i = false)
      by (unfold emits; now rewrite E).
    now rewrite E, He.
  - assert (He : emits sorted w m i = true)
      by (unfold emits; now rewrite E).
    rewrite E, He. cbn [map app]. now rewrite Hp.
Qed.

(* ================================================================== *)
(** * The sort on valid dates does not depend on the algorithm *)
(* ================================================================== *)

Lemma has_time_own (e : LogEntry) (t : Z) :
  timestamp e = Some t -> has_time t e = true.
Proof. unfold has_time. intros ->. apply Z.eqb_refl. Qed.

Lemma has_time_eq (e : LogEntry) (t : Z) :
  has_time t e = true -> timestamp e = Some t.
Proof.
  unfold has_time. destruct (timestamp e) as [x|]; [|discriminate].
  intros H. apply Z.eqb_eq in H. now subst.
Qed.

(** In ascending order of valid dates, the head is a minimum. *)
Lemma sorted_head_min :
  forall l b tb,
    Forall (fun e => isValidDate (timestamp e)) l ->
    Sorted not_after (b :: l) -> timestamp b = Some tb ->
    forall x, In x l -> exists tx, timestamp x = Some tx /\ tb <= tx.
Proof.
  induction l as [|c l IH]; intros b tb Hv Hs Hb x Hx; [contradiction|].
  apply Sorted_inv in Hs. destruct Hs as [Hs Hd]. apply HdRel_inv in Hd.
  inversion Hv as [|? ? Hc Hv']; subst.
  destruct (timestamp c) as [tc|] eqn:Htc; [|now elim Hc].
  pose proof (not_after_valid b c tb tc Hb Htc Hd) as Hbc.
  destruct Hx as [<-|Hx].
  - exists tc. now split.
  - destruct (IH c tc Hv' Hs Htc x Hx) as (tx & Htx & Hle).
    exists tx. split; [exact Htx|lia].
Qed.

Lemma filter_head_in (t : Z) (a : LogEntry) (l l' : list LogEntry) :
  timestamp a = Some t ->
  filter (has_time t) (a :: l) = filter (has_time t) l' -> In a l'.
Proof.
  intros Ha H. cbn [filter] in H. rewrite (has_time_own _ _ Ha) in H.
  assert (Hin : In a (filter (has_time t) l'))
    by (rewrite <- H; now left).
  now apply filter_In in Hin.
Qed.

Lemma stable_sorted_unique :
  forall s1 s2,
    Forall (fun e => isValidDate (timestamp e)) s1 ->
    Forall (fun e => isValidDate (timestamp e)) s2 ->
    Sorted not_after s1 -> Sorted not_after s2 ->
    (forall t, filter (has_time t) s1 = filter (has_time t) s2) ->
    s1 = s2.
Proof.
  induction s1 as [|a s1 IH]; intros [|b s2] Hv1 Hv2 Hs1 Hs2 H.
  - reflexivity.
  - inversion Hv2 as [|? ? Hb _]; subst.
    destruct (timestamp b) as [tb|] eqn:Htb; [|now elim Hb].
    specialize (H tb). cbn [filter] in H.
    rewrite (has_time_own _ _ Htb) in H. discriminate H.
  - inversion Hv1 as [|? ? Ha _]; subst.
    destruct (timestamp a) as [ta|] eqn:Hta; [|now elim Ha].
    specialize (H ta). cbn [filter] in H.
    rewrite (has_time_own _ _ Hta) in H. discriminate H.
  - inversion Hv1 as [|? ? Ha Hv1']; subst.
    inversion Hv2 as [|? ? Hb Hv2']; subst.
    destruct (timestamp a) as [ta|] eqn:Hta; [|now elim Ha].
    destruct (timestamp b) as [tb|] eqn:Htb; [|now elim Hb].
    assert (Hba : tb <= ta).
    { destruct (filter_head_in ta a s1 (b :: s2) Hta (H ta)) as [E|Hin].
      - subst b. rewrite Hta in Htb. injection Htb as <-. lia.
      - destruct (sorted_head_min s2 b tb Hv2' Hs2 Htb a Hin)
          as (tx & Htx & Hle).
        rewrite Hta in Htx. injection Htx as <-. exact Hle. }
    assert (Hab : ta <= tb).
    { destruct (filter_head_in tb b s2 (a :: s1) Htb (eq_sym (H tb)))
        as [E|Hin].
      - subst b. rewrite Hta in Htb. injection Htb as <-. lia.
      - destruct (sorted_head_min s1 a ta Hv1' Hs1 Hta b Hin)
          as (tx & Htx & Hle).
        rewrite Htb in Htx. injection Htx as <-. exact Hle. }
    assert (tb = ta) by lia. subst tb.
    pose proof (H ta) as Hh. cbn [filter] in Hh.
    rewrite (has_time_own _ _ Hta), (has_time_own _ _ Htb) in Hh.
    injection Hh as -> _. f_equal.
    apply Sorted_inv in Hs1, Hs2.
    apply IH; try tauto.
    intros t. specialize (H t). cbn [filter] in H.
    destruct (has_time t b); [now injection H|exact H].
Qed.

Lemma valid_dates_perm (l l' : list LogEntry) :
  Permutation l l' ->
  Forall (fun e => isValidDate (timestamp e)) l ->
  Forall (fun e => isValidDate (timestamp e)) l'.
Proof.
  intros Hp Hv. rewrite Forall_forall in *. intros x Hx.
  apply Hv. apply Permutation_in with (l := l'); [|exact Hx].
  now apply Permutation_sym.
Qed.

Lemma negative_valid (a b : LogEntry) (x y : Z) :
  timestamp a = Some x -> timestamp b = Some y ->
  num_ltb (CallCompare compareFn a b) (Finite 0) = (x <? y).
Proof.
  intros Ha Hb. rewrite CallCompare_negative.
  unfold num_ltb, compareFn. rewrite Ha, Hb. cbn [getTime].
  rewrite num_sub_Int. change (Finite 0) with (Int 0). rewrite num_gtb_Int.
  destruct (Z.ltb_spec (x - y) 0), (Z.ltb_spec x y); lia || reflexivity.
Qed.

Lemma filter_none {A : Type} (f : A -> bool) (l : list A) :
  (forall x, In x l -> f x = false) -> filter f l = [].
Proof.
  induction l as [|a l IH]; intros H; cbn [filter]; [reflexivity|].
  rewrite (H a) by now left. apply IH. intros x Hx. apply H. now right.
Qed.

(** In a descending run of valid dates, the head is later than all the
    rest. *)
Lemma descending_head_max :
  forall l a ta,
    Forall (fun e => isValidDate (timestamp e)) l ->
    Sorted (fun a b => num_ltb (CallCompare compareFn b a) (Finite 0) = true)
      (a :: l) ->
    timestamp a = Some ta ->
    forall x, In x l -> exists tx, timestamp x = Some tx /\ tx < ta.
Proof.
  induction l as [|c l IH]; intros a ta Hv Hs Ha x Hx; [contradiction|].
  apply Sorted_inv in Hs. destruct Hs as [Hs Hd]. apply HdRel_inv in Hd.
  inversion Hv as [|? ? Hc Hv']; subst.
  destruct (timestamp c) as [tc|] eqn:Htc; [|now elim Hc].
  rewrite (negative_valid c a tc ta Htc Ha) in Hd. apply Z.ltb_lt in Hd.
  destruct Hx as [<-|Hx].
  - exists tc. now split.
  - destruct (IH c tc Hv' Hs Htc x Hx) as (tx & Htx & Hlt).
    exists tx. split; [exact Htx|lia].
Qed.

(** Reversing a descending run of valid dates moves no record past
    another of the same instant: there are no two of them. *)
Lemma descending_run_rev (t : Z) (l : list LogEntry) :
  Forall (fun e => isValidDate (timestamp e)) l ->
  Sorted (fun a b => num_ltb (CallCompare compareFn b a) (Finite 0) = true)
    l ->
  filter (has_time t) (rev l) = filter (has_time t) l.
Proof.
  induction l as [|a l IH]; intros Hv Hs; [reflexivity|].
  inversion Hv as [|? ? Ha Hv']; subst.
  cbn [rev]. rewrite filter_app, IH;
    [|exact Hv'|now apply Sorted_inv in Hs].
  cbn [filter]. destruct (has_time t a) eqn:E; [|apply app_nil_r].
  apply has_time_eq in E.
  rewrite filter_none; [reflexivity|].
  intros x Hx.
  destruct (descending_head_max l a t Hv' Hs E x Hx) as (tx & Htx & Hlt).
  unfold has_time. rewrite Htx. apply Z.eqb_neq. lia.
Qed.

Lemma CountAndMakeRun_stable (t : Z) (l run rest : list LogEntry) :
  Forall (fun e => isValidDate (timestamp e)) l ->
  CountAndMakeRun compareFn l = (run, rest) ->
  filter (has_time t) run ++ filter (has_time t) rest
  = filter (has_time t) l.
Proof.
  intros Hv. unfold CountAndMakeRun. destruct l as [|x0 [|x1 l]].
  - intros H. now injection H as <- <-.
  - intros H. injection H as <- <-. apply app_nil_r.
  - cbv zeta.
    set (isDescending :=
           num_ltb (CallCompare compareFn x1 x0) (Finite 0)).
    destruct (run_from compareFn isDescending x0 (x1 :: l))
      as [run' rest'] eqn:E.
    pose proof (run_from_app compareFn isDescending _ _ _ _ E) as Happ.
    pose proof (run_from_sorted compareFn isDescending _ _ _ _ E) as Hs.
    intros H. injection H as <- <-.
    assert (Hl : filter (has_time t) (x0 :: x1 :: l)
                 = filter (has_time t) (x0 :: run')
                   ++ filter (has_time t) rest').
    { rewrite Happ. change (x0 :: run' ++ rest') with ((x0 :: run') ++ rest').
      apply filter_app. }
    rewrite Hl. f_equal.
    destruct isDescending; [|reflexivity].
    change (filter (has_time t) (rev (x0 :: run'))
            = filter (has_time t) (x0 :: run')).
    apply descending_run_rev; [|exact Hs].
    rewrite Happ in Hv.
    change (x0 :: run' ++ rest') with ((x0 :: run') ++ rest') in Hv.
    now apply Forall_app in Hv.
Qed.

(** On valid dates the binary search finds the place behind the
    records that are not later than the pivot: the insertion is
    stable. *)
Lemma BinaryInsertionSort_stable (t : Z) :
  forall rest sorted,
    Forall (fun e => isValidDate (timestamp e)) sorted ->
    Forall (fun e => isValidDate (timestamp e)) rest ->
    Sorted not_after sorted ->
    filter (has_time t) (BinaryInsertionSort compareFn sorted rest)
    = filter (has_time t) sorted ++ filter (has_time t) rest.
Proof.
  induction rest as [|pivot rest IH]; intros sorted Hv Hvr Hs;
    cbn [BinaryInsertionSort]; [now rewrite app_nil_r|].
  inversion Hvr as [|? ? Hp Hvr']; subst.
  set (left := binary_search (length sorted) compareFn sorted pivot 0
                 (length sorted)).
  assert (Hperm : Permutation (pivot :: sorted)
                    (firstn left sorted ++ pivot :: skipn left sorted)).
  { rewrite <- (firstn_skipn left sorted) at 1. apply Permutation_middle. }
  rewrite IH.
  - assert (Hsplit : filter (has_time t) sorted
                     = filter (has_time t) (firstn left sorted)
                       ++ filter (has_time t) (skipn left sorted))
      by (rewrite <- filter_app; now rewrite firstn_skipn).
    rewrite filter_app, Hsplit. cbn [filter].
    destruct (has_time t pivot) eqn:E; [|reflexivity].
    apply has_time_eq in E.
    assert (Hnone : filter (has_time t) (skipn left sorted) = []).
    { destruct (binary_search_spec compareFn sorted pivot (length sorted) 0
                  (length sorted)) as (_ & _ & Hr);
        [lia|lia|now left|now left|].
      fold left in Hr. destruct Hr as [Hlen|(z & Hz & Hxz)].
      - now rewrite skipn_all2.
      - pose proof (sorted_suffix not_after sorted left Hs) as Hs'.
        rewrite (skipn_nth_error sorted left z Hz) in *.
        assert (Hvz : Forall (fun e => isValidDate (timestamp e))
                        (z :: skipn (S left) sorted)).
        { rewrite <- (skipn_nth_error sorted left z Hz).
          rewrite <- (firstn_skipn left sorted) in Hv.
          now apply Forall_app in Hv. }
        inversion Hvz as [|? ? Hzv Hvz']; subst.
        destruct (timestamp z) as [tz|] eqn:Htz; [|now elim Hzv].
        rewrite (negative_valid pivot z t tz E Htz) in Hxz.
        apply Z.ltb_lt in Hxz.
        apply filter_none. intros x [<-|Hx].
        + unfold has_time. rewrite Htz. apply Z.eqb_neq. lia.
        + destruct (sorted_head_min _ z tz Hvz' Hs' Htz x Hx)
            as (tx & Htx & Hle).
          unfold has_time. rewrite Htx. apply Z.eqb_neq. lia. }
    rewrite Hnone, app_nil_r, <- app_assoc. reflexivity.
  - apply (valid_dates_perm (pivot :: sorted)); [exact Hperm|].
    now constructor.
  - exact Hvr'.
  - apply (binary_insert_sorted compareFn compareFn_antisym). exact Hs.
Qed.

Lemma sort_stable (t : Z) (l : list LogEntry) :
  Forall (fun e => isValidDate (timestamp e)) l ->
  filter (has_time t) (sort compareFn l) = filter (has_time t) l.
Proof.
  intros Hv. unfold sort.
  destruct (CountAndMakeRun compareFn l) as [run rest] eqn:E.
  pose proof (CountAndMakeRun_perm compareFn l run rest E) as Hperm.
  pose proof (valid_dates_perm _ _ Hperm Hv) as Hv'.
  apply Forall_app in Hv'. destruct Hv' as [Hvrun Hvrest].
  rewrite BinaryInsertionSort_stable; try assumption.
  - now apply CountAndMakeRun_stable.
  - apply (CountAndMakeRun_sorted compareFn compareFn_antisym l run rest E).
Qed.

Lemma sort_is_stable_sort (l : list LogEntry) :
  Forall (fun e => isValidDate (timestamp e)) l ->
  stable_sort_of l (sort compareFn l).
Proof.
  intros Hv. split; [apply sort_perm|]. split.
  - apply sort_sorted, compareFn_antisym.
  - intros t. now apply sort_stable.
Qed.

(** When every parsed date is valid the comparator is consistent, and
    the model's [sort] returns the one stable sorted arrangement: any
    implementation of [Array.prototype.sort] returns the same sequence,
    hence gives the same windows. *)
Theorem sort_unique_on_valid_dates (l s : list LogEntry) :
  Forall (fun e => isValidDate (timestamp e)) l ->
  stable_sort_of l s ->
  s = sort compareFn l.
Proof.
  intros Hv (Hp & Hs & Hf).
  destruct (sort_is_stable_sort l Hv) as (Hp' & Hs' & Hf').
  apply stable_sorted_unique; try assumption.
  - now apply (valid_dates_perm l).
  - now apply (valid_dates_perm l).
  - intros t. now rewrite Hf, Hf'.
Qed.

(* ================================================================== *)
(** * The range of the parsed time values *)
(* ================================================================== *)

Lemma digit_value_range (c : code_unit) (d : Z) :
  digit_value c = Some d -> 0 <= d <= 9.
Proof.
  unfold digit_value, isDigit.
  destruct (48 <=? c)%N eqn:H1, (c <=? 57)%N eqn:H2; simpl;
    try discriminate.
  intros H. injection H as <-.
  apply N.leb_le in H1, H2. lia.
Qed.

Lemma decimal_from_range (s : jsstring) :
  forall acc v,
    0 <= acc -> decimal_from acc s = Some v ->
    acc * 10 ^ Z.of_nat (length s) <= v
    < (acc + 1) * 10 ^ Z.of_nat (length s).
Proof.
  induction s as [|c s IH]; intros acc v Hacc H; cbn [decimal_from] in H.
  - injection H as <-. simpl. lia.
  - destruct (digit_value c) as [d|] eqn:Hd; [|discriminate].
    apply digit_value_range in Hd.
    apply IH in H; [|lia].
    replace (Z.of_nat (length (c :: s))) with (Z.succ (Z.of_nat (length s)))
      by (simpl length; lia).
    rewrite Z.pow_succ_r by lia.
    assert (0 < 10 ^ Z.of_nat (length s)) by (apply Z.pow_pos_nonneg; lia).
    nia.
Qed.

Lemma decimal_range (s : jsstring) (v : Z) :
  decimal s = Some v -> 0 <= v < 10 ^ Z.of_nat (length s).
Proof.
  unfold decimal. destruct s as [|c s]; [discriminate|].
  intros H. apply decimal_from_range in H; lia.
Qed.

Lemma slice_length (s : jsstring) (from to : nat) :
  (to <= length s)%nat -> length (slice s from to) = (to - from)%nat.
Proof.
  intros H. unfold slice. rewrite length_firstn, length_skipn. lia.
Qed.

Lemma DaysBeforeMonth_range (leap : bool) (m : Z) :
  0 <= m <= 11 -> 0 <= DaysBeforeMonth leap m <= 335.
Proof.
  intros H. unfold DaysBeforeMonth.
  assert (Hm : m = 0 \/ m = 1 \/ m = 2 \/ m = 3 \/ m = 4 \/ m = 5 \/ m = 6
               \/ m = 7 \/ m = 8 \/ m = 9 \/ m = 10 \/ m = 11) by lia.
  destruct leap;
    repeat (destruct Hm as [->|Hm]; [simpl; lia|]); subst; simpl; lia.
Qed.

(** The time value of in-range fields lies between the year 0 and the
    first days of the year 10000. *)
Lemma valid_fields_range (year month day hour mi sec ms : Z) :
  0 <= year < 10000 -> 0 <= month -> 0 <= day -> 0 <= hour -> 0 <= mi ->
  0 <= sec -> 0 <= ms < 1000 ->
  (1 <=? month) && (month <=? 12) && (1 <=? day) && (day <=? 31)
  && (((hour <=? 23) && (mi <=? 59) && (sec <=? 59))
      || ((hour =? 24) && (mi =? 0) && (sec =? 0) && (ms =? 0))) = true ->
  -62167219200000
  <= MakeDate (MakeDay year (month - 1) day) (MakeTime hour mi sec ms)
  <= 253402387200000.
Proof.
  intros Hy Hmo Hd Hh Hmi Hs Hms Hc.
  repeat (apply andb_prop in Hc; destruct Hc as [Hc ?]).
  repeat match goal with
         | H : (_ <=? _) = true |- _ => apply Z.leb_le in H
         end.
  assert (Htime : 0 <= MakeTime hour mi sec ms <= 86400000).
  { unfold MakeTime.
    match goal with H : (_ || _) = true |- _ =>
      apply orb_prop in H; destruct H as [H|H];
      repeat (apply andb_prop in H; destruct H as [H ?]) end;
    repeat match goal with
           | H : (_ <=? _) = true |- _ => apply Z.leb_le in H
           | H : (_ =? _) = true |- _ => apply Z.eqb_eq in H
           end; lia. }
  assert (Hday : -719528 <= MakeDay year (month - 1) day <= 2932897).
  { unfold MakeDay.
    replace ((month - 1) / 12) with 0 by (symmetry; apply Z.div_small; lia).
    rewrite (Z.mod_small (month - 1) 12) by lia.
    rewrite Z.add_0_r.
    pose proof (DaysBeforeMonth_range (InLeapYear year) (month - 1)).
    unfold DayFromYear.
    assert (Hq4 := Z.div_mod (year - 1969) 4).
    assert (Hq100 := Z.div_mod (year - 1901) 100).
    assert (Hq400 := Z.div_mod (year - 1601) 400).
    assert (Hr4 := Z.mod_pos_bound (year - 1969) 4).
    assert (Hr100 := Z.mod_pos_bound (year - 1901) 100).
    assert (Hr400 := Z.mod_pos_bound (year - 1601) 400).
    lia. }
  unfold MakeDate. lia.
Qed.

(** The valid time values that [Date_new] produces lie between the
    last day of the year -1 and the first days of the year 10000, the
    offset of a time zone being less than a day.  So the difference of
    two of them is an integer far below 2^53 in absolute value: the
    subtraction of the comparator and of the inner loop is exact in
    double precision, as [num_sub] has it. *)
Lemma Date_new_range (s : jsstring) (t : Z) :
  (forall u, Z.abs (LocalTZA u) <= 86400000) ->
  Date_new s = Some t -> -62167305600000 <= t <= 253402473600000.
Proof.
  intros Hzone. unfold Date_new.
  destruct (Nat.eqb (length s) 24) eqn:Hlen; [|discriminate].
  apply Nat.eqb_eq in Hlen.
  match goal with |- (if ?c then _ else _) = _ -> _ =>
    destruct c; [|discriminate] end.
  destruct (decimal (slice s 0 4)) as [year|] eqn:Hy; [|discriminate].
  destruct (decimal (slice s 5 7)) as [month|] eqn:Hmo; [|discriminate].
  destruct (decimal (slice s 8 10)) as [day|] eqn:Hd; [|discriminate].
  destruct (decimal (slice s 11 13)) as [hour|] eqn:Hh; [|discriminate].
  destruct (decimal (slice s 14 16)) as [mi|] eqn:Hmi; [|discriminate].
  destruct (decimal (slice s 17 19)) as [sec|] eqn:Hs; [|discriminate].
  destruct (decimal (slice s 20 23)) as [ms|] eqn:Hms; [|discriminate].
  apply decimal_range in Hy, Hmo, Hd, Hh, Hmi, Hs, Hms.
  rewrite slice_length in Hy, Hmo, Hd, Hh, Hmi, Hs, Hms by lia.
  pose proof (proj2 Hy : year < 10000) as Hy'.
  pose proof (proj2 Hms : ms < 1000) as Hms'.
  apply proj1 in Hy, Hmo, Hd, Hh, Hmi, Hs, Hms.
  cbv zeta.
  destruct (N.eqb (nth 19 s 0%N) 46%N).
  - match goal with |- (if ?c then _ else _) = _ -> _ =>
      destruct c eqn:Hc; [|discriminate] end.
    apply (valid_fields_range year) in Hc; try lia.
    unfold TimeClip.
    destruct (Z.abs _ >? 8640000000000000); [discriminate|].
    intros H'. injection H' as <-. lia.
  - destruct (N.eqb (nth 19 s 0%N) 0%N); [|discriminate].
    match goal with |- (if ?c then _ else _) = _ -> _ =>
      destruct c eqn:Hc; [|discriminate] end.
    apply (valid_fields_range year) in Hc; try lia.
    unfold TimeClip, UTC_of_local.
    destruct (Z.abs _ >? 8640000000000000); [discriminate|].
    intros H'. injection H' as <-.
    specialize (Hzone (MakeDate (MakeDay year (month - 1) day)
                                (MakeTime hour mi sec 0))).
    lia.
Qed.

(* ================================================================== *)
(** * The matcher on [logRegex] *)
(* ================================================================== *)

Lemma starts_with_app (a b : list (code_unit -> bool)) :
  forall s,
    starts_with (a ++ b) s
    = starts_with a s && starts_with b (skipn (length a) s).
Proof.
  induction a as [|p a IH]; intros s; [reflexivity|].
  destruct s as [|c s]; cbn [app starts_with length skipn].
  - reflexivity.
  - rewrite IH. apply andb_assoc.
Qed.

Lemma exactly_classes (p : code_unit -> bool) :
  forall n idx rest k,
    exactly n p idx rest k
    = if starts_with (repeat p n) rest
      then k (idx + n)%nat (skipn n rest) else None.
Proof.
  induction n as [|n IH]; intros idx rest k; cbn [exactly repeat starts_with].
  - now rewrite Nat.add_0_r.
  - destruct rest as [|c rest]; [reflexivity|].
    destruct (p c); [|reflexivity].
    rewrite IH. cbn [andb skipn]. now rewrite Nat.add_succ_r.
Qed.

(** A pattern of single characters matches without choice. *)
Lemma rmatch_classes (r : regex) :
  forall ps idx rest caps k,
    classes_of r = Some ps ->
    rmatch r idx rest caps k
    = if starts_with ps rest
      then k (idx + length ps)%nat (skipn (length ps) rest) caps else None.
Proof.
  induction r as [| |ch|p|n p|p|p|r1 IH1 r2 IH2|g r1 IH1|r1 IH1];
    intros ps idx rest caps k H; cbn [classes_of] in H; try discriminate.
  - injection H as <-. cbn [rmatch starts_with length].
    destruct rest as [|c rest]; [reflexivity|].
    unfold is_char. destruct (N.eqb c ch); [|reflexivity].
    cbn [andb skipn]. now rewrite Nat.add_1_r.
  - injection H as <-. cbn [rmatch starts_with length].
    destruct rest as [|c rest]; [reflexivity|].
    destruct (p c); [|reflexivity].
    cbn [andb skipn]. now rewrite Nat.add_1_r.
  - injection H as <-. cbn [rmatch]. rewrite exactly_classes.
    now rewrite repeat_length.
  - destruct (classes_of r1) as [a|]; [|discriminate].
    destruct (classes_of r2) as [b|]; [|discriminate].
    injection H as <-. cbn [rmatch].
    rewrite (IH1 a) by reflexivity. rewrite starts_with_app.
    destruct (starts_with a rest); [|reflexivity].
    rewrite (IH2 b) by reflexivity. cbn [andb].
    now rewrite length_app, skipn_skipn, Nat.add_assoc, (Nat.add_comm (length b)).
Qed.

(** A greedy repetition whose continuation fails on every input that
    begins with one more character of the class takes the whole run. *)
Lemma greedy_commit (p : code_unit -> bool)
    (k : nat -> jsstring -> option captures) :
  (forall i c s, p c = true -> k i (c :: s) = None) ->
  forall rest idx,
    greedy p idx rest k
    = k (idx + length (takeWhile p rest))%nat (dropWhile p rest).
Proof.
  intros Hk. induction rest as [|c rest IH]; intros idx;
    cbn [greedy takeWhile dropWhile length].
  - now rewrite Nat.add_0_r.
  - destruct (p c) eqn:E.
    + rewrite IH. cbn [length]. rewrite Nat.add_succ_r. cbn [Nat.add].
      destruct (k _ (dropWhile p rest)) eqn:Ek; [reflexivity|].
      now apply Hk.
    + cbn [length]. now rewrite Nat.add_0_r.
Qed.

Lemma forallb_dropWhile {A : Type} (p q : A -> bool) (l : list A) :
  forallb q l = true -> forallb q (dropWhile p l) = true.
Proof.
  induction l as [|x l IH]; intros H; cbn [dropWhile]; [reflexivity|].
  destruct (p x); [|exact H].
  apply IH. cbn [forallb] in H. now apply andb_prop in H.
Qed.

(** A greedy repetition followed by something that wants the rest of the
    input to be of class [q] takes the whole run too: giving characters
    back only lengthens what has to be of class [q]. *)
Lemma greedy_then_all (p q : code_unit -> bool)
    (F : nat -> jsstring -> captures) :
  forall rest idx,
    greedy p idx rest
      (fun i s => if forallb q s then Some (F i s) else None)
    = if forallb q (dropWhile p rest)
      then Some (F (idx + length (takeWhile p rest))%nat (dropWhile p rest))
      else None.
Proof.
  induction rest as [|c rest IH]; intros idx;
    cbn [greedy takeWhile dropWhile length].
  - cbn [forallb]. now rewrite Nat.add_0_r.
  - destruct (p c) eqn:E.
    + rewrite IH. cbn [length]. rewrite Nat.add_succ_r. cbn [Nat.add].
      destruct (forallb q (dropWhile p rest)) eqn:Eq; [reflexivity|].
      destruct (forallb q (c :: rest)) eqn:Eall; [|reflexivity].
      cbn [forallb] in Eall. apply andb_prop in Eall.
      rewrite (forallb_dropWhile p q rest (proj2 Eall)) in Eq. discriminate.
    + cbn [length]. now rewrite Nat.add_0_r.
Qed.

(** [.*] followed by the end of the input. *)
Lemma greedy_to_end (p : code_unit -> bool) (F : nat -> captures) :
  forall rest idx,
    greedy p idx rest
      (fun i s => match s with [] => Some (F i) | _ :: _ => None end)
    = if forallb p rest then Some (F (idx + length rest)%nat) else None.
Proof.
  induction rest as [|c rest IH]; intros idx; cbn [greedy forallb length].
  - now rewrite Nat.add_0_r.
  - destruct (p c); [|reflexivity].
    rewrite IH. rewrite Nat.add_succ_r. cbn [andb Nat.add].
    now destruct (forallb p rest).
Qed.

Lemma dropWhile_head {A : Type} (p : A -> bool) (l : list A) (x : A)
    (l' : list A) :
  dropWhile p l = x :: l' -> p x = false.
Proof.
  induction l as [|y l IH]; cbn [dropWhile]; [discriminate|].
  destruct (p y) eqn:E; [exact IH|].
  intros H. injection H as <- _. exact E.
Qed.

Lemma firstn_takeWhile {A : Type} (p : A -> bool) (l : list A) :
  firstn (length (takeWhile p l)) l = takeWhile p l.
Proof.
  induction l as [|x l IH]; cbn [takeWhile]; [reflexivity|].
  destruct (p x); [|reflexivity].
  cbn [length firstn]. now rewrite IH.
Qed.

Lemma takeWhile_dropWhile {A : Type} (p : A -> bool) (l : list A) :
  takeWhile p l ++ dropWhile p l = l.
Proof.
  induction l as [|x l IH]; cbn [takeWhile dropWhile]; [reflexivity|].
  destruct (p x); [|reflexivity]. cbn [app]. now rewrite IH.
Qed.

(** [p+] under the hypothesis of [greedy_commit]. *)
Lemma plus_commit (p : code_unit -> bool) (caps : captures)
    (k : nat -> jsstring -> captures -> option captures) :
  (forall i c s, p c = true -> k i (c :: s) caps = None) ->
  forall rest idx,
    rmatch (Plus p) idx rest caps k
    = if is_empty (takeWhile p rest) then None
      else k (idx + length (takeWhile p rest))%nat (dropWhile p rest) caps.
Proof.
  intros Hk rest idx. cbn [rmatch].
  destruct rest as [|c rest]; [reflexivity|].
  cbn [takeWhile dropWhile]. destruct (p c) eqn:E; [|reflexivity].
  cbn [is_empty length].
  rewrite (greedy_commit p (fun i s => k i s caps)) by exact Hk.
  now rewrite Nat.add_succ_r.
Qed.

Lemma exec_from_logRegex_later :
  forall rest idx, idx <> 0%nat -> exec_from logRegex idx rest = None.
Proof.
  induction rest as [|c rest IH]; intros idx Hidx; cbn [exec_from];
    unfold logRegex at 1; cbn [rmatch];
    destruct (Nat.eqb_spec idx 0) as [E|_]; try contradiction;
    [reflexivity|].
  now apply IH.
Qed.

(** [logRegex] begins with [^]: a match can only start at index 0. *)
Lemma string_match_start (line : jsstring) :
  string_match line logRegex
  = rmatch (Group 0 logRegex) 0 line no_captures (fun _ _ c => Some c).
Proof.
  unfold string_match.
  destruct line as [|c line]; cbn [exec_from];
    destruct (rmatch (Group 0 logRegex) 0 _ no_captures _);
    try reflexivity.
  now apply exec_from_logRegex_later.
Qed.

Lemma greedy_ext (p : code_unit -> bool)
    (k k' : nat -> jsstring -> option captures) :
  (forall i s, k i s = k' i s) ->
  forall rest idx, greedy p idx rest k = greedy p idx rest k'.
Proof.
  intros H. induction rest as [|c rest IH]; intros idx; cbn [greedy].
  - apply H.
  - rewrite IH, H. reflexivity.
Qed.

Lemma rmatch_Seq (r1 r2 : regex) idx rest caps k :
  rmatch (r1 >> r2) idx rest caps k
  = rmatch r1 idx rest caps (fun i s c => rmatch r2 i s c k).
Proof. reflexivity. Qed.

Lemma rmatch_Group (n : nat) (r : regex) idx rest caps k :
  rmatch (Group n r) idx rest caps k
  = rmatch r idx rest caps
      (fun i s c => k i s (set_capture n (firstn (i - idx) rest) c)).
Proof. reflexivity. Qed.

(** The end of [logRegex]: the optional detail and the end of the
    input, on what follows the event token. *)
Lemma rmatch_details (G : nat -> captures -> captures) (i : nat)
    (tail : jsstring) (caps : captures) :
  (forall c t, tail = c :: t -> isSpace c = true) ->
  exists j,
    rmatch (Opt (Plus isSpace >> Group 3 (Star isDot)) >> Assert_end)
      i tail caps (fun i' _ c => Some (G i' c))
    = if forallb isDot (dropWhile isSpace tail)
      then Some (G j match tail with
                     | [] => caps
                     | _ :: _ => set_capture 3 (dropWhile isSpace tail) caps
                     end)
      else None.
Proof.
  intros Hsp. destruct tail as [|c t].
  - exists i. reflexivity.
  - specialize (Hsp c t eq_refl). cbn [rmatch dropWhile]. rewrite Hsp.
    set (F := fun (i1 : nat) (s1 : jsstring) =>
                G (i1 + length s1)%nat (set_capture 3 s1 caps)).
    rewrite (greedy_ext isSpace _
               (fun i1 s1 => if forallb isDot s1 then Some (F i1 s1)
                             else None)).
    + rewrite greedy_then_all.
      exists (S i + length (takeWhile isSpace t)
              + length (dropWhile isSpace t))%nat.
      unfold F. now destruct (forallb isDot (dropWhile isSpace t)).
    + intros i1 s1.
      rewrite (greedy_to_end isDot
                 (fun i2 => G i2 (set_capture 3 (firstn (i2 - i1) s1) caps))).
      unfold F.
      now rewrite Nat.add_comm, Nat.add_sub, firstn_all.
Qed.

Lemma rmatch_token_stops (r : regex) i c s caps k :
  isSpace c = true ->
  rmatch (Group 2 (Plus isNonSpace) >> r) i (c :: s) caps k = None.
Proof.
  intros H. cbn [rmatch]. unfold isNonSpace. now rewrite H.
Qed.

Lemma rmatch_details_stops i c s caps k :
  isNonSpace c = true ->
  rmatch (Opt (Plus isSpace >> Group 3 (Star isDot)) >> Assert_end)
    i (c :: s) caps k = None.
Proof.
  unfold isNonSpace. intros H. apply negb_true_iff in H.
  cbn [rmatch]. now rewrite H.
Qed.

(** The match of [logRegex] on a line, by the line's parts: it succeeds
    on the well-formed lines, with the timestamp token, the event token
    and the detail as groups 1, 2 and 3. *)
Lemma string_match_logRegex (line : jsstring) :
  exists whole,
    string_match line logRegex
    = if well_formed_line line
      then Some (set_capture 0 whole
                   (let caps :=
                      set_capture 2 (line_token line)
                        (set_capture 1 (firstn 24 line) no_captures) in
                    match line_tail line with
                    | [] => caps
                    | _ :: _ => set_capture 3 (line_details line) caps
                    end))
      else None.
Proof.
  rewrite string_match_start. unfold logRegex, well_formed_line.
  set (TS := digits 4 >> _).
  rewrite rmatch_Group, rmatch_Seq.
  change (rmatch Assert_start 0 line no_captures ?k)
    with (k 0%nat line no_captures).
  cbv beta. rewrite rmatch_Seq, rmatch_Group.
  rewrite (rmatch_classes TS timestamp_classes) by reflexivity.
  destruct (starts_with timestamp_classes line); [|now exists []].
  cbn [andb length timestamp_classes Nat.add Nat.sub].
  fold (line_after line).
  rewrite rmatch_Seq, plus_commit
    by (intros; now apply rmatch_token_stops).
  destruct (is_empty (takeWhile isSpace (line_after line)));
    [now exists []|].
  cbn [negb andb].
  rewrite rmatch_Seq, rmatch_Group, plus_commit
    by (intros; now apply rmatch_details_stops).
  fold (line_token line). fold (line_tail line).
  destruct (is_empty (line_token line)); [now exists []|].
  cbn [negb andb].
  replace (firstn _ (dropWhile isSpace (line_after line)))
    with (line_token line)
    by (rewrite Nat.add_comm, Nat.add_sub; unfold line_token;
        now rewrite firstn_takeWhile).
  destruct (rmatch_details
              (fun i c => set_capture 0 (firstn (i - 0) line) c)
              (24 + length (takeWhile isSpace (line_after line))
               + length (line_token line))
              (line_tail line)
              (set_capture 2 (line_token line)
                 (set_capture 1 (firstn 24 line) no_captures)))
    as [j Hj].
  { intros c t Ht. unfold line_tail in Ht.
    apply dropWhile_head in Ht. unfold isNonSpace in Ht.
    now apply negb_false_iff in Ht. }
  rewrite Hj. fold (line_details line).
  exists (firstn (j - 0) line).
  now destruct (forallb isDot (line_details line)).
Qed.

(** What [parseLogEntries] does with one line: a well-formed line adds
    its record, any other line adds nothing. *)
Lemma parse_line_record (entries : list LogEntry) (line : jsstring) :
  parse_line entries line = entries ++ records_of line.
Proof.
  unfold parse_line, records_of, line_record.
  destruct (string_match_logRegex line) as [whole ->].
  destruct (well_formed_line line) eqn:Hwf; [|now rewrite app_nil_r].
  assert (Hd : line_tail line = [] -> line_details line = [])
    by (unfold line_details; now intros ->).
  destruct (line_tail line) as [|c t].
  - rewrite Hd by reflexivity. reflexivity.
  - cbv [set_capture Nat.eqb]. now destruct (line_details line).
Qed.

(* ================================================================== *)
(** * The parser, line by line *)
(* ================================================================== *)

Lemma fold_parse_line (lines : list jsstring) :
  forall entries,
    fold_left parse_line lines entries
    = entries ++ flat_map records_of lines.
Proof.
  induction lines as [|line lines IH]; intros entries; cbn [fold_left flat_map].
  - now rewrite app_nil_r.
  - now rewrite IH, parse_line_record, <- app_assoc.
Qed.

Lemma isDigit_not_space (c : code_unit) :
  isDigit c = true -> isSpace c = false.
Proof.
  unfold isDigit, isSpace. intros H. apply andb_prop in H.
  destruct H as [H1 H2]. apply N.leb_le in H1, H2.
  repeat match goal with
         | |- (_ || _)%bool = false => apply orb_false_iff; split
         | |- (_ =? _)%N = false => apply N.eqb_neq; lia
         end.
  apply andb_false_iff. left. apply N.leb_gt. lia.
Qed.

Lemma dropWhile_nil {A : Type} (p : A -> bool) (l : list A) :
  dropWhile p l = [] -> forallb p l = true.
Proof.
  induction l as [|x l IH]; cbn [dropWhile forallb]; [reflexivity|].
  destruct (p x); [exact IH|discriminate].
Qed.

(** A line that [trim] empties consists of whitespace. *)
Lemma trim_empty (s : jsstring) :
  is_empty (trim s) = true -> forallb isSpace s = true.
Proof.
  unfold trim. intros H.
  destruct (rev (dropWhile isSpace (rev (dropWhile isSpace s)))) eqn:E;
    [|discriminate].
  apply (f_equal (@rev _)) in E. rewrite rev_involutive in E. cbn [rev] in E.
  apply dropWhile_nil in E. rewrite forallb_forall in E.
  destruct (dropWhile isSpace s) as [|c t] eqn:Ed.
  - now apply dropWhile_nil.
  - pose proof (dropWhile_head _ _ _ _ Ed) as Hc.
    rewrite (E c) in Hc; [discriminate|].
    apply in_rev. rewrite rev_involutive. now left.
Qed.

Lemma records_of_not_digit (c : code_unit) (line : jsstring) :
  isDigit c = false -> records_of (c :: line) = [].
Proof.
  intros H. unfold records_of, line_record, well_formed_line.
  cbn [starts_with timestamp_classes]. now rewrite H.
Qed.

Lemma records_of_blank (line : jsstring) :
  is_empty (trim line) = true -> records_of line = [].
Proof.
  intros H. apply trim_empty in H. destruct line as [|c line]; [reflexivity|].
  cbn [forallb] in H. apply andb_prop in H. destruct H as [H _].
  apply records_of_not_digit.
  destruct (isDigit c) eqn:E; [|reflexivity].
  apply isDigit_not_space in E. congruence.
Qed.

Lemma flat_map_filter_nil {A B : Type} (f : A -> list B) (keep : A -> bool)
    (l : list A) :
  (forall x, keep x = false -> f x = []) ->
  flat_map f (filter keep l) = flat_map f l.
Proof.
  intros H. induction l as [|x l IH]; cbn [filter flat_map]; [reflexivity|].
  destruct (keep x) eqn:E; cbn [flat_map]; rewrite IH; [reflexivity|].
  now rewrite (H x E).
Qed.

(** The records of a content are those of its lines. *)
Lemma parseLogEntries_lines (logContent : jsstring) :
  parseLogEntries logContent
  = flat_map records_of (split 10%N logContent).
Proof.
  unfold parseLogEntries. rewrite fold_parse_line. cbn [app].
  apply flat_map_filter_nil. intros line H.
  apply records_of_blank. now apply negb_false_iff in H.
Qed.

(** X1.  [parseLogEntries] returns, in the order of the lines, the
    record of every well-formed line of the content and nothing for the
    other lines; the filter on blank lines changes nothing, since a
    blank line is not well-formed. *)
Theorem parseLogEntries_by_line (logContent : jsstring) :
  parseLogEntries logContent
  = flat_map records_of (split 10%N logContent).
Proof.
  unfold parseLogEntries. rewrite fold_parse_line. cbn [app].
  apply flat_map_filter_nil. intros line H.
  apply records_of_blank. now apply negb_false_iff in H.
Qed.

Lemma split_nonempty (sep : code_unit) (s : jsstring) : split sep s <> [].
Proof.
  destruct s as [|c s]; cbn [split]; [discriminate|].
  destruct (N.eqb c sep); [discriminate|].
  destruct (split sep s); discriminate.
Qed.

Lemma split_app (sep : code_unit) (a b : jsstring) :
  split sep (a ++ sep :: b) = split sep a ++ split sep b.
Proof.
  induction a as [|c a IH]; cbn [app split].
  - now rewrite N.eqb_refl.
  - rewrite IH. destruct (N.eqb c sep); [reflexivity|].
    pose proof (split_nonempty sep a) as Hne.
    destruct (split sep a); [now elim Hne|reflexivity].
Qed.

(** X2.  Parsing distributes over lines: the records of two contents
    joined by a line feed are the records of the first followed by the
    records of the second.  No line influences how another is parsed. *)
Theorem parseLogEntries_concat (a b : jsstring) :
  parseLogEntries (a ++ [10%N] ++ b) = parseLogEntries a ++ parseLogEntries b.
Proof.
  rewrite !parseLogEntries_lines. cbn [app].
  now rewrite split_app, flat_map_app.
Qed.

(** X3.  A line whose first code unit is not an ASCII digit adds no
    record: the match is made on the untrimmed line, so an indented
    line is dropped although it is not blank. *)
Theorem parse_line_needs_leading_digit
    (entries : list LogEntry) (c : code_unit) (line : jsstring) :
  isDigit c = false -> parse_line entries (c :: line) = entries.
Proof.
  intros H. rewrite parse_line_record, records_of_not_digit by exact H.
  apply app_nil_r.
Qed.

Lemma isLineTerminator_space (c : code_unit) :
  isLineTerminator c = true -> isSpace c = true.
Proof.
  unfold isLineTerminator, isSpace. intros H.
  repeat (apply orb_prop in H; destruct H as [H|H]);
    apply N.eqb_eq in H; subst c; reflexivity.
Qed.

Lemma records_of_In (logContent : jsstring) (e : LogEntry) :
  In e (parseLogEntries logContent) ->
  exists line, In line (split 10%N logContent)
               /\ well_formed_line line = true
               /\ line_record line = Some e.
Proof.
  rewrite parseLogEntries_lines, in_flat_map.
  intros (line & Hline & He). exists line. split; [exact Hline|].
  unfold records_of in He. unfold line_record in *.
  destruct (well_formed_line line); [|contradiction].
  destruct He as [<-|[]]. now split.
Qed.

Lemma takeWhile_head {A : Type} (p : A -> bool) (l : list A) (x : A)
    (l' : list A) :
  takeWhile p l = x :: l' -> p x = true.
Proof.
  destruct l as [|y l]; cbn [takeWhile]; [discriminate|].
  destruct (p y) eqn:E; [|discriminate].
  intros H. injection H as <- _. exact E.
Qed.

(** X4.  The event of every record is non-empty, begins with a code
    unit that is not whitespace, and contains no line terminator. *)
Theorem parsed_event_shape (logContent : jsstring) (e : LogEntry) :
  In e (parseLogEntries logContent) ->
  (exists c s, event e = c :: s /\ isSpace c = false)
  /\ Forall (fun c => isLineTerminator c = false) (event e).
Proof.
  intros H. apply records_of_In in H.
  destruct H as (line & _ & Hwf & He).
  unfold line_record in He. rewrite Hwf in He. injection He as <-.
  cbn [event]. unfold well_formed_line in Hwf.
  repeat (apply andb_prop in Hwf; destruct Hwf as [Hwf ?]).
  assert (Htok : Forall (fun c => isLineTerminator c = false)
                   (line_token line)).
  { pose proof (takeWhile_Forall isNonSpace
                  (dropWhile isSpace (line_after line))) as HF.
    eapply Forall_impl; [|exact HF]. cbv beta. intros c Hc.
    destruct (isLineTerminator c) eqn:E; [|reflexivity].
    apply isLineTerminator_space in E. unfold isNonSpace in Hc.
    rewrite E in Hc. discriminate. }
  assert (Hdet : Forall (fun c => isLineTerminator c = false)
                   (line_details line)).
  { apply Forall_forall. intros c Hc.
    match goal with Hd : forallb isDot _ = true |- _ =>
      rewrite forallb_forall in Hd; specialize (Hd c Hc) end.
    unfold isDot in *. now apply negb_true_iff. }
  destruct (line_token line) as [|c tok] eqn:Etok; [discriminate|].
  split.
  - exists c. unfold line_token in Etok. apply takeWhile_head in Etok.
    unfold isNonSpace in Etok. apply negb_true_iff in Etok.
    destruct (line_details line); eexists; (split; [reflexivity|exact Etok]).
  - destruct (line_details line) as [|d det]; [exact Htok|].
    apply Forall_app. split; [exact Htok|].
    constructor; [reflexivity|exact Hdet].
Qed.

(* ================================================================== *)
(** * Carriage returns *)
(* ================================================================== *)

Lemma starts_with_snoc (x : code_unit) (classes : list (code_unit -> bool)) :
  Forall (fun p => p x = false) classes ->
  forall l, starts_with classes (l ++ [x]) = starts_with classes l.
Proof.
  induction 1 as [|p classes Hp _ IH]; intros l; [reflexivity|].
  destruct l as [|c l]; cbn [app starts_with].
  - now rewrite Hp.
  - now rewrite IH.
Qed.

Lemma starts_with_length (classes : list (code_unit -> bool)) :
  forall l, starts_with classes l = true -> (length classes <= length l)%nat.
Proof.
  induction classes as [|p classes IH]; intros l H; cbn [length]; [lia|].
  destruct l as [|c l]; cbn [starts_with] in H; [discriminate|].
  apply andb_prop in H. destruct H as [_ H]. cbn [length].
  apply IH in H. lia.
Qed.

Lemma takeWhile_snoc_stop {A : Type} (p : A -> bool) (x : A) (l : list A) :
  p x = false -> takeWhile p (l ++ [x]) = takeWhile p l.
Proof.
  intros Hx. induction l as [|y l IH]; cbn [app takeWhile].
  - now rewrite Hx.
  - destruct (p y); [now rewrite IH|reflexivity].
Qed.

Lemma dropWhile_snoc_stop {A : Type} (p : A -> bool) (x : A) (l : list A) :
  p x = false -> dropWhile p (l ++ [x]) = dropWhile p l ++ [x].
Proof.
  intros Hx. induction l as [|y l IH]; cbn [app dropWhile].
  - now rewrite Hx.
  - destruct (p y); [exact IH|reflexivity].
Qed.

Lemma takeWhile_snoc_some {A : Type} (p : A -> bool) (x : A) (l : list A) :
  dropWhile p l <> [] -> takeWhile p (l ++ [x]) = takeWhile p l.
Proof.
  induction l as [|y l IH]; cbn [app takeWhile dropWhile];
    [intros H; now elim H|].
  destruct (p y); [|reflexivity]. intros H. now rewrite IH.
Qed.

Lemma dropWhile_snoc_some {A : Type} (p : A -> bool) (x : A) (l : list A) :
  dropWhile p l <> [] -> dropWhile p (l ++ [x]) = dropWhile p l ++ [x].
Proof.
  induction l as [|y l IH]; cbn [app dropWhile];
    [intros H; now elim H|].
  destruct (p y); [exact IH|reflexivity].
Qed.

Lemma dropWhile_snoc_all {A : Type} (p : A -> bool) (x : A) (l : list A) :
  p x = true -> dropWhile p l = [] -> dropWhile p (l ++ [x]) = [].
Proof.
  intros Hx. induction l as [|y l IH]; cbn [app dropWhile].
  - now rewrite Hx.
  - destruct (p y); [exact IH|discriminate].
Qed.

Lemma forallb_snoc_false {A : Type} (p : A -> bool) (x : A) (l : list A) :
  p x = false -> forallb p (l ++ [x]) = false.
Proof.
  intros Hx. rewrite forallb_app. cbn [forallb]. rewrite Hx.
  now rewrite andb_false_r.
Qed.

(** X5.  A carriage return at the end of a line (a CRLF line ending):
    a line without detail is parsed as if the return were absent; a
    line with a non-empty detail is dropped, since the detail must reach
    the end of the line and cannot contain the return. *)
Theorem parse_line_trailing_CR (entries : list LogEntry) (line : jsstring) :
  parse_line entries (line ++ [13%N])
  = if is_empty (line_details line) then parse_line entries line
    else entries.
Proof.
  rewrite !parse_line_record.
  assert (H : records_of (line ++ [13%N])
              = if is_empty (line_details line) then records_of line
                else []).
  2:{ rewrite H. destruct (is_empty (line_details line));
        [reflexivity|apply app_nil_r]. }
  unfold records_of, line_record, well_formed_line.
  rewrite (starts_with_snoc 13%N timestamp_classes)
    by (repeat constructor).
  destruct (starts_with timestamp_classes line) eqn:Hsw;
    [|now destruct (is_empty (line_details line))].
  apply starts_with_length in Hsw. change (length timestamp_classes)
    with 24%nat in Hsw.
  assert (Hafter : line_after (line ++ [13%N]) = line_after line ++ [13%N]).
  { unfold line_after. rewrite skipn_app.
    replace (24 - length line)%nat with 0%nat by lia. reflexivity. }
  assert (Hts : firstn 24 (line ++ [13%N]) = firstn 24 line).
  { rewrite firstn_app.
    replace (24 - length line)%nat with 0%nat by lia.
    cbn [firstn]. apply app_nil_r. }
  unfold line_details, line_tail, line_token. rewrite Hafter, Hts.
  set (after := line_after line). cbn [andb].
  destruct (dropWhile isSpace after) as [|c r2] eqn:Er2.
  - (* nothing but whitespace after the timestamp: no token *)
    rewrite (dropWhile_snoc_all isSpace) by (reflexivity || assumption).
    cbn [takeWhile dropWhile is_empty negb andb].
    now rewrite !andb_false_r.
  - rewrite takeWhile_snoc_some, dropWhile_snoc_some
      by (rewrite Er2; discriminate).
    rewrite Er2.
    rewrite (takeWhile_snoc_stop isNonSpace) by reflexivity.
    rewrite (dropWhile_snoc_stop isNonSpace) by reflexivity.
    set (tail := dropWhile isNonSpace (c :: r2)).
    destruct (dropWhile isSpace tail) as [|d det] eqn:Edet.
    + rewrite (dropWhile_snoc_all isSpace) by (reflexivity || assumption).
      reflexivity.
    + rewrite dropWhile_snoc_some by (rewrite Edet; discriminate).
      rewrite Edet. rewrite forallb_snoc_false by reflexivity.
      cbn [is_empty]. now rewrite !andb_false_r.
Qed.

(* ================================================================== *)
(** * How the result depends on the two thresholds *)
(* ================================================================== *)

Lemma num_leb_trans (a b c : number) :
  num_leb a b = true -> num_leb b c = true -> num_leb a c = true.
Proof.
  destruct a as [x| | |], b as [y| | |], c as [z| | |]; simpl;
    try discriminate; try reflexivity.
  intros H1 H2. apply Qle_bool_iff in H1, H2. apply Qle_bool_iff.
  now apply Qle_trans with y.
Qed.

Lemma filter_flat_map {A B : Type} (f : B -> bool) (g : A -> list B)
    (l : list A) :
  filter f (flat_map g l) = flat_map (fun x => filter f (g x)) l.
Proof.
  induction l as [|x l IH]; cbn [flat_map]; [reflexivity|].
  now rewrite filter_app, IH.
Qed.

Lemma emitted_at_filter (sorted : list LogEntry) (w m m' : number) (i : nat) :
  num_leb m m' = true ->
  emitted_at sorted w m' i = filter (long_enough m') (emitted_at sorted w m i).
Proof.
  intros Hm. unfold emitted_at.
  destruct (window_at sorted w i) as [p|]; [|reflexivity].
  fold (long_enough m p). fold (long_enough m' p).
  destruct (long_enough m p) eqn:E; cbn [filter].
  - now destruct (long_enough m' p).
  - destruct (long_enough m' p) eqn:E'; [|reflexivity].
    unfold long_enough, num_geb in *.
    rewrite (num_leb_trans _ _ _ Hm E') in E. discriminate.
Qed.

(** X6.  Raising [minSequenceLength] filters the result: the windows for
    a larger minimum are, in the same order, the windows for the smaller
    one that are long enough. *)
Theorem larger_minimum_filters
    (logContent : jsstring) (timeWindowMs m m' : number)
    (patterns : list Pattern) :
  num_leb m m' = true ->
  analyzeLogPatterns logContent timeWindowMs m = Normal patterns ->
  analyzeLogPatterns logContent timeWindowMs m'
  = Normal (filter (long_enough m') patterns).
Proof.
  intros Hm Hrun. rewrite analyzeLogPatterns_spec in *.
  injection Hrun as <-. f_equal. unfold detect_spec.
  rewrite filter_flat_map. apply flat_map_ext. intros i.
  now apply emitted_at_filter.
Qed.

Lemma in_window_wider (w w' : number) (a r : LogEntry) :
  num_leb w w' = true -> in_window w a r = true -> in_window w' a r = true.
Proof.
  unfold in_window. intros Hw H. exact (num_leb_trans _ _ _ H Hw).
Qed.

Lemma takeWhile_prefix {A : Type} (p q : A -> bool) (l : list A) :
  (forall x, In x l -> p x = true -> q x = true) ->
  exists more, takeWhile q l = takeWhile p l ++ more.
Proof.
  induction l as [|x l IH]; intros H; cbn [takeWhile].
  - now exists [].
  - destruct (p x) eqn:E.
    + rewrite (H x (or_introl eq_refl) E).
      destruct IH as [more Hmore].
      { intros y Hy. apply H. now right. }
      exists more. cbn [app]. now rewrite Hmore.
    + eexists. reflexivity.
Qed.

Lemma detect_spec_In (sorted : list LogEntry) (w m : number) (i : nat)
    (a : LogEntry) :
  nth_error sorted i = Some a ->
  long_enough m (window_of a (run_at sorted w i)) = true ->
  In (window_of a (run_at sorted w i)) (detect_spec sorted w m).
Proof.
  intros Ha Hlen. unfold detect_spec. apply in_flat_map. exists i. split.
  - apply in_seq. split; [lia|]. cbn [Nat.add].
    apply nth_error_Some. rewrite Ha. discriminate.
  - unfold emitted_at. rewrite (window_at_Some _ _ _ _ Ha).
    fold (long_enough m (window_of a (run_at sorted w i))).
    rewrite Hlen. now left.
Qed.

(** X7.  Widening [timeWindowMs] only lengthens the runs: every window
    emitted for the smaller duration has a counterpart for the larger
    one with the same start and with its events as a prefix. *)
Theorem wider_window_extends
    (logContent : jsstring) (w w' m : number)
    (patterns patterns' : list Pattern) (p : Pattern) :
  num_leb w w' = true ->
  analyzeLogPatterns logContent w m = Normal patterns ->
  analyzeLogPatterns logContent w' m = Normal patterns' ->
  In p patterns ->
  exists p' more,
    In p' patterns'
    /\ startTime p' = startTime p
    /\ events p' = events p ++ more.
Proof.
  intros Hw Hrun Hrun' Hp. rewrite analyzeLogPatterns_spec in *.
  injection Hrun as <-. injection Hrun' as <-.
  set (sorted := sort compareFn (parseLogEntries logContent)) in *.
  apply in_detect_spec in Hp. destruct Hp as (i & a & Ha & -> & Hlen).
  destruct (takeWhile_prefix (in_window w a) (in_window w' a)
              (skipn (S i) sorted)) as [more Hmore].
  { intros x _. now apply in_window_wider. }
  exists (window_of a (run_at sorted w' i)), (map event more).
  assert (Hruns : run_at sorted w' i = run_at sorted w i ++ more).
  { rewrite !(run_at_length _ _ _ _ Ha). cbn [app]. now rewrite Hmore. }
  split; [|split].
  - apply detect_spec_In; [exact Ha|].
    unfold long_enough, window_of in *. cbn [events] in *.
    rewrite length_map in *. unfold num_geb in *.
    apply (num_leb_weaken _ _ _ Hlen).
    rewrite Hruns, length_app. lia.
  - reflexivity.
  - unfold window_of. cbn [events]. now rewrite Hruns, map_app.
Qed.

(* ================================================================== *)
(** * Degenerate thresholds *)
(* ================================================================== *)

Lemma num_leb_Int_mono (a b : Z) (w : number) :
  a <= b -> num_leb (Int b) w = true -> num_leb (Int a) w = true.
Proof.
  intros Hab H. apply (num_leb_trans _ (Int b)); [|exact H].
  rewrite num_leb_Int. now apply Z.leb_le.
Qed.

(** In ascending order no record is within a window that does not
    contain 0 of the record before it. *)
Lemma run_at_singleton_no_zero (sorted : list LogEntry) (w : number)
    (i : nat) (a : LogEntry) :
  Sorted not_after sorted -> num_leb (Finite 0) w = false ->
  nth_error sorted i = Some a ->
  run_at sorted w i = [a].
Proof.
  intros Hs Hw Ha. rewrite (run_at_length _ _ _ _ Ha).
  pose proof (sorted_from_anchor _ _ _ Hs Ha) as Hsa.
  destruct (skipn (S i) sorted) as [|b l]; [reflexivity|].
  cbn [takeWhile]. destruct (in_window w a b) eqn:E; [|reflexivity].
  exfalso. apply Sorted_inv in Hsa. destruct Hsa as [_ Hd].
  apply HdRel_inv in Hd.
  destruct (in_window_valid _ _ _ E) as (x & y & Hx & Hy & Hle).
  pose proof (not_after_valid a b x y Hx Hy Hd) as Hxy.
  change (Finite 0) with (Int 0) in Hw.
  rewrite (num_leb_Int_mono 0 (y - x) w) in Hw by (lia || assumption).
  discriminate.
Qed.

Lemma map_nth_error_seq {A : Type} (l : list A) :
  map (nth_error l) (seq 0 (length l)) = map Some l.
Proof.
  induction l as [|x l IH]; [reflexivity|].
  cbn [length seq map nth_error]. f_equal.
  rewrite <- seq_shift, map_map. exact IH.
Qed.

(** X8.  A [timeWindowMs] that is negative or [NaN] is not rejected:
    every run is its anchor alone, so the result is one singleton
    window per record when [minSequenceLength <= 1] and the empty list
    otherwise. *)
Theorem negative_window_singletons
    (logContent : jsstring) (timeWindowMs minSequenceLength : number) :
  num_leb (Finite 0) timeWindowMs = false ->
  analyzeLogPatterns logContent timeWindowMs minSequenceLength
  = Normal (if num_leb minSequenceLength (Finite 1)
            then map singleton_window
                   (sort compareFn (parseLogEntries logContent))
            else []).
Proof.
  intros Hw. rewrite analyzeLogPatterns_spec. f_equal.
  set (sorted := sort compareFn (parseLogEntries logContent)).
  pose proof (sorted_entries logContent) as Hs. fold sorted in Hs.
  assert (Hwin : forall i a, nth_error sorted i = Some a ->
                   window_at sorted timeWindowMs i
                   = Some (singleton_window a)).
  { intros i a Ha. rewrite (window_at_Some _ _ _ _ Ha).
    now rewrite (run_at_singleton_no_zero sorted _ i a). }
  destruct (num_leb minSequenceLength (Finite 1)) eqn:Hm.
  - apply map_Some_inj. rewrite detect_spec_small_all by exact Hm.
    transitivity (map (option_map singleton_window)
                    (map (nth_error sorted) (seq 0 (length sorted)))).
    + rewrite map_map. apply map_ext_in. intros i Hi. apply in_seq in Hi.
      assert (Hlt : (i < length sorted)%nat) by lia.
      destruct (nth_error_lt sorted i Hlt) as [a Ha].
      now rewrite (Hwin i a Ha), Ha.
    + now rewrite map_nth_error_seq, !map_map.
  - apply flat_map_nil. intros i Hi. apply in_seq in Hi.
    assert (Hlt : (i < length sorted)%nat) by lia.
    destruct (nth_error_lt sorted i Hlt) as [a Ha].
    unfold emitted_at. rewrite (Hwin i a Ha).
    change (num_geb (Int (Z.of_nat (length (events (singleton_window a)))))
              minSequenceLength)
      with (num_leb minSequenceLength (Finite 1)).
    now rewrite Hm.
Qed.

Lemma takeWhile_length {A : Type} (p : A -> bool) (l : list A) :
  (length (takeWhile p l) <= length l)%nat.
Proof.
  induction l as [|x l IH]; cbn [takeWhile length]; [lia|].
  destruct (p x); cbn [length]; lia.
Qed.

Lemma run_at_length_le (sorted : list LogEntry) (w : number) (i : nat) :
  (length (run_at sorted w i) <= length sorted)%nat.
Proof.
  unfold run_at. destruct (nth_error sorted i) as [a|] eqn:Ha;
    cbn [length]; [|lia].
  assert (Hi : (i < length sorted)%nat)
    by (apply nth_error_Some; rewrite Ha; discriminate).
  pose proof (takeWhile_length (in_window w a) (skipn (S i) sorted)).
  rewrite length_skipn in *. lia.
Qed.

(** X9.  A [minSequenceLength] that the number of parsed records does
    not reach (a larger number, [Infinity], or [NaN]) is not rejected
    either: the result is the empty list. *)
Theorem unreachable_minimum_empty
    (logContent : jsstring) (timeWindowMs minSequenceLength : number) :
  num_geb (Int (Z.of_nat (length (parseLogEntries logContent))))
    minSequenceLength = false ->
  analyzeLogPatterns logContent timeWindowMs minSequenceLength = Normal [].
Proof.
  intros Hm. rewrite analyzeLogPatterns_spec. f_equal.
  set (sorted := sort compareFn (parseLogEntries logContent)).
  apply flat_map_nil. intros i _. unfold emitted_at, window_at.
  destruct (nth_error sorted i) as [a|]; [|reflexivity].
  unfold window_of. cbn [events]. rewrite length_map.
  destruct (num_geb (Int (Z.of_nat (length (run_at sorted timeWindowMs i))))
              minSequenceLength) eqn:E; [|reflexivity].
  unfold num_geb in *.
  rewrite (num_leb_weaken _ _ (Z.of_nat (length (parseLogEntries logContent)))
             E) in Hm; [discriminate|].
  pose proof (run_at_length_le sorted timeWindowMs i) as Hle.
  unfold sorted in Hle at 2.
  rewrite <- (Permutation_length (sort_perm compareFn _)) in Hle. lia.
Qed.

(** X10.  At most one window is emitted per parsed record, and a window
    has at least one event and at most as many as there are records. *)
Theorem output_size_bounds
    (logContent : jsstring) (timeWindowMs minSequenceLength : number)
    (patterns : list Pattern) :
  analyzeLogPatterns logContent timeWindowMs minSequenceLength
  = Normal patterns ->
  (length patterns <= length (parseLogEntries logContent))%nat
  /\ Forall (fun p => (1 <= length (events p)
                       <= length (parseLogEntries logContent))%nat)
       patterns.
Proof.
  intros Hrun. rewrite analyzeLogPatterns_spec in Hrun. injection Hrun as <-.
  set (sorted := sort compareFn (parseLogEntries logContent)).
  assert (Hn : length sorted = length (parseLogEntries logContent))
    by (symmetry; apply Permutation_length, sort_perm).
  split.
  - rewrite <- Hn.
    replace (length (detect_spec sorted timeWindowMs minSequenceLength))
      with (length (filter (emits sorted timeWindowMs minSequenceLength)
                      (seq 0 (length sorted))))
      by (rewrite <- (length_map (window_at sorted timeWindowMs)),
            <- detect_spec_anchors, length_map; reflexivity).
    etransitivity; [apply filter_length_le|]. now rewrite length_seq.
  - apply Forall_forall. intros p Hp. apply in_detect_spec in Hp.
    destruct Hp as (i & a & Ha & -> & _).
    unfold window_of. cbn [events]. rewrite length_map, <- Hn.
    split; [now apply (run_at_nonempty _ _ _ a)|apply run_at_length_le].
Qed.

(* ================================================================== *)
(** * Overlapping windows *)
(* ================================================================== *)

Lemma run_at_inv (sorted : list LogEntry) (w : number) (i : nat)
    (a b : LogEntry) (rest : list LogEntry) :
  run_at sorted w i = a :: b :: rest ->
  exists l,
    nth_error sorted i = Some a
    /\ skipn (S i) sorted = b :: l
    /\ in_window w a b = true
    /\ rest = takeWhile (in_window w a) l.
Proof.
  unfold run_at. destruct (nth_error sorted i) as [a'|] eqn:Ha;
    [|discriminate].
  destruct (skipn (S i) sorted) as [|b' l] eqn:Hl; cbn [takeWhile];
    [discriminate|].
  destruct (in_window w a' b') eqn:E; [|discriminate].
  intros H. injection H as -> -> <-. now exists l.
Qed.

Lemma skipn_cons_nth_error {A : Type} (l : list A) :
  forall i x l', skipn i l = x :: l' ->
    nth_error l i = Some x /\ skipn (S i) l = l'.
Proof.
  induction l as [|y l IH]; intros [|i] x l' H; cbn [skipn] in H;
    try discriminate.
  - injection H as -> ->. now split.
  - apply IH in H. exact H.
Qed.

(** X11.  Windows overlap: when the run of anchor [i] has a second
    record, the run of anchor [i+1] begins with the run of [i] less its
    first record; and if that remainder is itself long enough, anchor
    [i+1] emits a window too. *)
Theorem next_anchor_covers_tail
    (logContent : jsstring) (timeWindowMs minSequenceLength : number)
    (i : nat) (a b : LogEntry) (rest : list LogEntry) :
  let sorted := sort compareFn (parseLogEntries logContent) in
  run_at sorted timeWindowMs i = a :: b :: rest ->
  exists more,
    run_at sorted timeWindowMs (S i) = b :: rest ++ more
    /\ (num_geb (Int (Z.of_nat (length (b :: rest)))) minSequenceLength
        = true ->
        emitted_at sorted timeWindowMs minSequenceLength (S i)
        = [window_of b (b :: rest ++ more)]).
Proof.
  intros sorted Hrun.
  pose proof (sorted_entries logContent) as Hs. fold sorted in Hs.
  destruct (run_at_inv _ _ _ _ _ _ Hrun) as (l & Ha & Hl & Hab & ->).
  pose proof (sorted_from_anchor _ _ _ Hs Ha) as Hsa. rewrite Hl in Hsa.
  apply Sorted_inv in Hsa. destruct Hsa as [_ Hd]. apply HdRel_inv in Hd.
  destruct (skipn_cons_nth_error _ _ _ _ Hl) as [Hb Hl'].
  destruct (in_window_valid _ _ _ Hab) as (x & y & Hx & Hy & _).
  pose proof (not_after_valid a b x y Hx Hy Hd) as Hxy.
  destruct (takeWhile_prefix (in_window timeWindowMs a)
              (in_window timeWindowMs b) l) as [more Hmore].
  { intros r _ Hr.
    destruct (in_window_valid _ _ _ Hr) as (x' & z & Hx' & Hz & Hle).
    rewrite Hx in Hx'. injection Hx' as <-.
    unfold in_window. rewrite Hy, Hz. cbn [getTime]. rewrite num_sub_Int.
    apply (num_leb_Int_mono _ (z - x)); [lia|exact Hle]. }
  assert (Hnext : run_at sorted timeWindowMs (S i) = b :: takeWhile
                    (in_window timeWindowMs a) l ++ more).
  { rewrite (run_at_length _ _ _ _ Hb), Hl'. now rewrite Hmore. }
  exists more. split; [exact Hnext|].
  intros Hlen. unfold emitted_at. rewrite (window_at_Some _ _ _ _ Hb), Hnext.
  unfold window_of at 1. cbn [events]. rewrite length_map.
  unfold num_geb in *.
  rewrite (num_leb_weaken _ _ _ Hlen); [reflexivity|].
  cbn [length]. rewrite length_app. lia.
Qed.

(* ================================================================== *)
(** * Start and end of a window *)
(* ================================================================== *)

Lemma run_members_later (P : LogEntry -> bool) :
  (forall r, P r = true -> isValidDate (timestamp r)) ->
  forall l b tb,
    Sorted not_after (b :: l) -> timestamp b = Some tb ->
    forall r, In r (takeWhile P l) ->
      exists tr, timestamp r = Some tr /\ tb <= tr.
Proof.
  intros HP. induction l as [|c l IH]; intros b tb Hs Hb r Hr;
    cbn [takeWhile] in Hr; [contradiction|].
  destruct (P c) eqn:E; [|contradiction].
  apply Sorted_inv in Hs. destruct Hs as [Hs Hd]. apply HdRel_inv in Hd.
  pose proof (HP c E) as Hc.
  destruct (timestamp c) as [tc|] eqn:Htc; [|now elim Hc].
  pose proof (not_after_valid b c tb tc Hb Htc Hd) as Hbc.
  destruct Hr as [<-|Hr].
  - exists tc. now split.
  - destruct (IH c tc Hs Htc r Hr) as (tr & Htr & Hle).
    exists tr. split; [exact Htr|lia].
Qed.

(** X12.  A window whose start is a valid date ends at a valid date that
    is not earlier than its start. *)
Theorem window_end_not_before_start
    (logContent : jsstring) (timeWindowMs minSequenceLength : number)
    (patterns : list Pattern) (p : Pattern) :
  analyzeLogPatterns logContent timeWindowMs minSequenceLength
  = Normal patterns ->
  In p patterns ->
  isValidDate (startTime p) ->
  exists s e, startTime p = Some s /\ endTime p = Some e /\ s <= e.
Proof.
  intros Hrun Hp Hvalid. rewrite analyzeLogPatterns_spec in Hrun.
  injection Hrun as <-.
  set (sorted := sort compareFn (parseLogEntries logContent)) in *.
  pose proof (sorted_entries logContent) as Hs. fold sorted in Hs.
  apply in_detect_spec in Hp. destruct Hp as (i & a & Ha & -> & _).
  rewrite (run_at_length _ _ _ _ Ha).
  unfold window_of in *. cbn [startTime endTime] in *.
  destruct (timestamp a) as [s|] eqn:Hta; [|now elim Hvalid].
  exists s.
  set (tw := takeWhile (in_window timeWindowMs a) (skipn (S i) sorted)).
  destruct (last_In tw a a) as [E|E].
  - exists s. rewrite <- E, Hta. repeat split. lia.
  - destruct (run_members_later (in_window timeWindowMs a)) with
      (l := skipn (S i) sorted) (b := a) (tb := s) (r := last (a :: tw) a)
      as (e & He & Hle).
    + intros r Hr. destruct (in_window_valid _ _ _ Hr) as (_ & y & _ & Hy & _).
      unfold isValidDate. rewrite Hy. discriminate.
    + now apply sorted_from_anchor.
    + exact Hta.
    + exact E.
    + exists e. now repeat split.
Qed.

(* ================================================================== *)
(** * Order of the output and of the input *)
(* ================================================================== *)

Lemma sorted_nth_le :
  forall l,
    Forall (fun e => isValidDate (timestamp e)) l ->
    Sorted not_after l ->
    forall i j a b,
      (i < j)%nat -> nth_error l i = Some a -> nth_error l j = Some b ->
      exists x y, timestamp a = Some x /\ timestamp b = Some y /\ x <= y.
Proof.
  induction l as [|h l IH]; intros Hv Hs i j a b Hij Ha Hb.
  - destruct i; discriminate.
  - inversion Hv as [|? ? Hh Hv']; subst.
    destruct j as [|j]; [lia|]. cbn [nth_error] in Hb.
    destruct i as [|i]; cbn [nth_error] in Ha.
    + injection Ha as ->.
      destruct (timestamp a) as [x|] eqn:Hx; [|now elim Hh].
      apply nth_error_In in Hb.
      destruct (sorted_head_min l a x Hv' Hs Hx b Hb) as (y & Hy & Hle).
      now exists x, y.
    + apply Sorted_inv in Hs. destruct Hs as [Hs _].
      apply (IH Hv' Hs i j); (lia || assumption).
Qed.

Lemma windows_at_anchors_ordered (sorted : list LogEntry) (w : number) :
  Forall (fun e => isValidDate (timestamp e)) sorted ->
  Sorted not_after sorted ->
  forall anchors patterns,
    StronglySorted lt anchors ->
    map Some patterns = map (window_at sorted w) anchors ->
    StronglySorted starts_before patterns.
Proof.
  intros Hv Hs. induction anchors as [|i anchors IH];
    intros [|p patterns] Hanch Hmap; cbn [map] in Hmap;
    try discriminate; [constructor|].
  injection Hmap as Hp Hmap. apply StronglySorted_inv in Hanch.
  destruct Hanch as [Hanch Hi]. constructor; [now apply IH|].
  apply Forall_forall. intros q Hq.
  assert (Hq' : In (Some q) (map (window_at sorted w) anchors))
    by (rewrite <- Hmap; now apply in_map).
  apply in_map_iff in Hq'. destruct Hq' as (j & Hj & Hjin).
  rewrite Forall_forall in Hi. specialize (Hi j Hjin).
  unfold window_at in Hp, Hj.
  destruct (nth_error sorted i) as [a|] eqn:Ha; [|discriminate].
  destruct (nth_error sorted j) as [b|] eqn:Hb; [|discriminate].
  injection Hp as ->. injection Hj as <-.
  destruct (sorted_nth_le sorted Hv Hs i j a b Hi Ha Hb)
    as (x & y & Hx & Hy & Hle).
  exists x, y. now repeat split.
Qed.

(** X13.  When every parsed date is valid the windows are reported in
    chronological order of their start. *)
Theorem windows_in_chronological_order
    (logContent : jsstring) (timeWindowMs minSequenceLength : number)
    (patterns : list Pattern) :
  Forall (fun e => isValidDate (timestamp e)) (parseLogEntries logContent) ->
  analyzeLogPatterns logContent timeWindowMs minSequenceLength
  = Normal patterns ->
  StronglySorted starts_before patterns.
Proof.
  intros Hv Hrun. rewrite analyzeLogPatterns_spec in Hrun.
  injection Hrun as <-.
  set (sorted := sort compareFn (parseLogEntries logContent)).
  apply (windows_at_anchors_ordered sorted timeWindowMs)
    with (anchors := emitting_anchors sorted timeWindowMs minSequenceLength).
  - apply (valid_dates_perm (parseLogEntries logContent));
      [apply sort_perm|exact Hv].
  - apply sorted_entries.
  - apply StronglySorted_filter, StronglySorted_seq.
  - apply detect_spec_anchors.
Qed.

(** X14.  When every parsed date is valid the sort is stable: the
    records that share a time value stand in the sorted sequence in the
    order in which they were parsed. *)
Theorem sorted_records_keep_parse_order (logContent : jsstring) (t : Z) :
  Forall (fun e => isValidDate (timestamp e)) (parseLogEntries logContent) ->
  filter (has_time t) (sort compareFn (parseLogEntries logContent))
  = filter (has_time t) (parseLogEntries logContent).
Proof. apply sort_stable. Qed.

Lemma Permutation_filter {A : Type} (f : A -> bool) (l l' : list A) :
  Permutation l l' -> Permutation (filter f l) (filter f l').
Proof.
  induction 1 as [|x l l' _ IH|x y l|l l' l'' _ IH1 _ IH2]; cbn [filter].
  - constructor.
  - destruct (f x); [now constructor|exact IH].
  - destruct (f x), (f y); try reflexivity. apply perm_swap.
  - now transitivity (filter f l').
Qed.

Lemma distinct_times_filter (t : Z) (l : list LogEntry) :
  NoDup (valid_times l) -> (length (filter (has_time t) l) <= 1)%nat.
Proof.
  induction l as [|x l IH]; intros Hnd; cbn [filter length]; [lia|].
  unfold valid_times in Hnd. cbn [flat_map] in Hnd.
  fold (valid_times l) in Hnd.
  destruct (has_time t x) eqn:E.
  - apply has_time_eq in E. rewrite E in Hnd. cbn [app] in Hnd.
    apply NoDup_cons_iff in Hnd. destruct Hnd as [Hnot Hnd].
    destruct (filter (has_time t) l) as [|y l'] eqn:Ef; [cbn; lia|].
    exfalso. apply Hnot.
    assert (Hy : In y (filter (has_time t) l)) by (rewrite Ef; now left).
    apply filter_In in Hy. destruct Hy as [Hy Hty].
    apply has_time_eq in Hty. unfold valid_times. apply in_flat_map.
    exists y. split; [exact Hy|]. rewrite Hty. now left.
  - apply IH. destruct (timestamp x); [|exact Hnd].
    cbn [app] in Hnd. now apply NoDup_cons_iff in Hnd.
Qed.

Lemma short_perm_eq {A : Type} (l l' : list A) :
  (length l <= 1)%nat -> Permutation l l' -> l = l'.
Proof.
  destruct l as [|x [|y l]]; cbn [length]; intros Hlen Hp; try lia.
  - apply Permutation_nil in Hp. now subst.
  - apply Permutation_length_1_inv in Hp. now subst.
Qed.

(** X15.  The order of the lines does not matter when the dates are
    valid and pairwise distinct: two contents whose parsed records are
    permutations of each other give the same result. *)
Theorem line_order_irrelevant
    (logContent logContent' : jsstring)
    (timeWindowMs minSequenceLength : number) :
  Forall (fun e => isValidDate (timestamp e)) (parseLogEntries logContent) ->
  NoDup (valid_times (parseLogEntries logContent)) ->
  Permutation (parseLogEntries logContent) (parseLogEntries logContent') ->
  analyzeLogPatterns logContent' timeWindowMs minSequenceLength
  = analyzeLogPatterns logContent timeWindowMs minSequenceLength.
Proof.
  intros Hv Hnd Hp. rewrite !analyzeLogPatterns_spec. do 2 f_equal.
  apply (sort_unique_on_valid_dates _ _ Hv).
  destruct (sort_is_stable_sort (parseLogEntries logContent')
              (valid_dates_perm _ _ Hp Hv))
    as (Hp' & Hs' & Hf').
  split; [now transitivity (parseLogEntries logContent')|].
  split; [exact Hs'|].
  intros t. rewrite Hf'. symmetry. apply short_perm_eq.
  - now apply distinct_times_filter.
  - now apply Permutation_filter.
Qed.

(* ================================================================== *)
(** * The sliding window on valid dates *)
(* ================================================================== *)


End Process.

(* ================================================================== *)
(** * Concrete logs, in a process whose time zone is UTC *)
(* ================================================================== *)

Lemma emitted_window_bounds_witness :
  num_leb (Finite 0) (Finite 10000) = true
  /\ analyzeLogPatterns UTC sampleLog (Finite 10000) (Finite 2)
     = Normal sampleLog_patterns
  /\ In sampleLog_pattern_0 sampleLog_patterns
  /\ long_enough (Finite 2) sampleLog_pattern_0 = true
  /\ (isValidDate (startTime sampleLog_pattern_0) ->
      within_duration (Finite 10000) sampleLog_pattern_0 = true).
Proof.
  assert (Hw : num_leb (Finite 0) (Finite 10000) = true) by reflexivity.
  assert (Hrun : analyzeLogPatterns UTC sampleLog (Finite 10000) (Finite 2)
                 = Normal sampleLog_patterns) by (vm_compute; reflexivity).
  assert (Hin : In sampleLog_pattern_0 sampleLog_patterns)
    by (left; reflexivity).
  split; [exact Hw|]. split; [exact Hrun|]. split; [exact Hin|].
  exact (emitted_window_bounds UTC sampleLog (Finite 10000) (Finite 2)
           sampleLog_patterns sampleLog_pattern_0 Hw Hrun Hin).
Defined.

(** C2, as stated, fails: a line whose timestamp matches the pattern but
    is no date gives a record with an invalid date; with
    [minSequenceLength = 1] its run of one record is emitted, and
    [endTime - startTime] is [NaN], which is not [<= timeWindowMs]. *)
Lemma invalid_date_window_exceeds_duration :
  num_leb (Finite 0) (Finite 10000) = true
  /\ analyzeLogPatterns UTC (js "2023-13-01T00:00:00.000Z BOOT")
       (Finite 10000) (Finite 1)
     = Normal [ {| events := [js "BOOT"];
                   startTime := None; endTime := None |} ]
  /\ within_duration (Finite 10000)
       {| events := [js "BOOT"]; startTime := None; endTime := None |}
     = false.
Proof. vm_compute. repeat split; reflexivity. Qed.

Lemma nonpositive_minimum_returns_list_witness :
  num_leb (Finite 0) (Finite 0) = true
  /\ exists patterns,
       analyzeLogPatterns UTC sampleLog (Finite 10000) (Finite 0)
       = Normal patterns
       /\ analyzeLogPatterns UTC sampleLog (Finite 10000) (Finite 1)
          = Normal patterns.
Proof.
  split; [reflexivity|].
  exact (nonpositive_minimum_returns_list UTC sampleLog (Finite 10000) (Finite 0)
           eq_refl).
Defined.

(** C4, as stated, fails: with [minSequenceLength] 0 or -1 the call
    returns a list of windows, it does not end with an error. *)
Lemma nonpositive_minimum_is_not_rejected :
  analyzeLogPatterns UTC (js "2023-04-15T14:32:15.123Z LOGIN")
    (Finite 10000) (Finite 0)
  = Normal [ {| events := [js "LOGIN"];
                startTime := Some 1681569135123;
                endTime := Some 1681569135123 |} ]
  /\ analyzeLogPatterns UTC (js "2023-04-15T14:32:15.123Z LOGIN")
       (Finite 10000) (Finite (-1))
     = Normal [ {| events := [js "LOGIN"];
                   startTime := Some 1681569135123;
                   endTime := Some 1681569135123 |} ].
Proof. vm_compute. split; reflexivity. Qed.

Lemma small_minimum_one_window_per_record_witness :
  num_leb (Finite 1) (Finite 1) = true
  /\ exists patterns,
       analyzeLogPatterns UTC sampleLog (Finite 10000) (Finite 1)
       = Normal patterns
       /\ length patterns = 6%nat.
Proof.
  split; [reflexivity|].
  destruct (small_minimum_one_window_per_record UTC sampleLog (Finite 10000)
              (Finite 1) eq_refl) as (patterns & Hrun & Hlen & _).
  exists patterns. split; [exact Hrun|]. exact Hlen.
Defined.

Lemma zero_window_identical_timestamps_witness :
  (NoDup (valid_times (parseLogEntries UTC sampleLog))
   /\ num_leb (Finite 2) (Finite 2) = true
   /\ analyzeLogPatterns UTC sampleLog (Finite 0) (Finite 2) = Normal [])
  /\ (let p := {| events := [js "LOGIN"; js "NAVIGATE"];
                  startTime := Some 1681569135123;
                  endTime := Some 1681569135123 |} in
      analyzeLogPatterns UTC twinLog (Finite 0) (Finite 2) = Normal [p]
      /\ In p [p]
      /\ endTime p = startTime p).
Proof.
  assert (Hnd : NoDup (valid_times (parseLogEntries UTC sampleLog))).
  { vm_compute.
    repeat (constructor; [simpl; intuition discriminate|]). constructor. }
  split.
  - split; [exact Hnd|]. split; [reflexivity|].
    exact (proj2 (zero_window_identical_timestamps UTC sampleLog (Finite 2))
             Hnd eq_refl).
  - intros p.
    assert (Hrun : analyzeLogPatterns UTC twinLog (Finite 0) (Finite 2)
                   = Normal [p]) by (vm_compute; reflexivity).
    split; [exact Hrun|]. split; [left; reflexivity|].
    destruct (proj1 (zero_window_identical_timestamps UTC twinLog (Finite 2))
                [p] p Hrun (or_introl eq_refl)) as (i & a & _ & _ & _ & H).
    exact H.
Defined.

Lemma empty_log_witness :
  num_leb (Finite 1) (Finite 2) = true
  /\ parseLogEntries UTC (js "") = []
  /\ analyzeLogPatterns UTC (js "") (Finite 10000) (Finite 2) = Normal [].
Proof.
  split; [reflexivity|].
  exact (empty_log UTC (Finite 10000) (Finite 2) eq_refl).
Defined.

Lemma sort_unique_on_valid_dates_witness :
  Forall (fun e => isValidDate (timestamp e)) (parseLogEntries UTC sampleLog)
  /\ stable_sort_of (parseLogEntries UTC sampleLog) (parseLogEntries UTC sampleLog)
  /\ parseLogEntries UTC sampleLog = sort compareFn (parseLogEntries UTC sampleLog).
Proof.
  assert (Hv : Forall (fun e => isValidDate (timestamp e))
                 (parseLogEntries UTC sampleLog))
    by (vm_compute; repeat constructor; discriminate).
  assert (Hs : stable_sort_of (parseLogEntries UTC sampleLog)
                 (parseLogEntries UTC sampleLog)).
  { split; [reflexivity|]. split; [|reflexivity].
    vm_compute. repeat constructor. }
  split; [exact Hv|]. split; [exact Hs|].
  exact (sort_unique_on_valid_dates _ _ Hv Hs).
Defined.

Lemma parse_line_needs_leading_digit_witness :
  isDigit 32%N = false
  /\ parse_line UTC [] (js " 2023-04-15T14:32:15.123Z LOGIN") = []
  /\ parse_line UTC [] (js "2023-04-15T14:32:15.123Z LOGIN") <> [].
Proof.
  split; [reflexivity|]. split.
  - exact (parse_line_needs_leading_digit UTC []
             32%N (js "2023-04-15T14:32:15.123Z LOGIN") eq_refl).
  - vm_compute. discriminate.
Defined.

Lemma parsed_event_shape_witness :
  In {| timestamp := Some 1681569135123;
        event := js "LOGIN User logged in" |}
     (parseLogEntries UTC sampleLog)
  /\ (exists c s, js "LOGIN User logged in" = c :: s /\ isSpace c = false)
  /\ Forall (fun c => isLineTerminator c = false)
       (js "LOGIN User logged in").
Proof.
  assert (Hin : In {| timestamp := Some 1681569135123;
                      event := js "LOGIN User logged in" |}
                   (parseLogEntries UTC sampleLog))
    by (vm_compute; left; reflexivity).
  split; [exact Hin|].
  exact (parsed_event_shape UTC sampleLog _ Hin).
Defined.

Lemma larger_minimum_filters_witness :
  num_leb (Finite 2) (Finite 3) = true
  /\ analyzeLogPatterns UTC sampleLog (Finite 10000) (Finite 2)
     = Normal sampleLog_patterns
  /\ analyzeLogPatterns UTC sampleLog (Finite 10000) (Finite 3)
     = Normal [sampleLog_pattern_0].
Proof.
  assert (Hrun : analyzeLogPatterns UTC sampleLog (Finite 10000) (Finite 2)
                 = Normal sampleLog_patterns) by (vm_compute; reflexivity).
  split; [reflexivity|]. split; [exact Hrun|].
  exact (larger_minimum_filters UTC sampleLog (Finite 10000) (Finite 2)
           (Finite 3) sampleLog_patterns eq_refl Hrun).
Defined.

Lemma wider_window_extends_witness :
  num_leb (Finite 3000) (Finite 10000) = true
  /\ exists p p' more,
       analyzeLogPatterns UTC sampleLog (Finite 3000) (Finite 2) = Normal [p; p']
       /\ In sampleLog_pattern_0 sampleLog_patterns
       /\ startTime sampleLog_pattern_0 = startTime p
       /\ events sampleLog_pattern_0 = events p ++ more.
Proof.
  split; [reflexivity|].
  set (p := {| events := [js "LOGIN User logged in";
                          js "NAVIGATE User navigated to dashboard"];
               startTime := Some 1681569135123;
               endTime := Some 1681569137456 |}).
  set (q := {| events := [js "NAVIGATE User navigated to dashboard";
                          js "CLICK User clicked on settings"];
               startTime := Some 1681569137456;
               endTime := Some 1681569139789 |}).
  assert (Hrun : analyzeLogPatterns UTC sampleLog (Finite 3000) (Finite 2)
                 = Normal [p; q]) by (vm_compute; reflexivity).
  assert (Hrun' : analyzeLogPatterns UTC sampleLog (Finite 10000) (Finite 2)
                  = Normal sampleLog_patterns) by (vm_compute; reflexivity).
  destruct (wider_window_extends UTC sampleLog (Finite 3000) (Finite 10000)
              (Finite 2) [p; q] sampleLog_patterns p eq_refl Hrun Hrun'
              (or_introl eq_refl))
    as (p' & more & Hin & Hstart & Hev).
  exists p, q, more. split; [exact Hrun|].
  assert (Hp' : p' = sampleLog_pattern_0).
  { destruct Hin as [<-|[<-|[<-|[]]]]; try reflexivity;
      cbn in Hstart; discriminate Hstart. }
  subst p'. split; [now left|]. split; [exact Hstart|exact Hev].
Defined.

Lemma negative_window_singletons_witness :
  num_leb (Finite 0) (Finite (-1)) = false
  /\ num_leb (Finite 0) NaN = false
  /\ analyzeLogPatterns UTC sampleLog (Finite (-1)) (Finite 2) = Normal []
  /\ analyzeLogPatterns UTC sampleLog NaN (Finite 2) = Normal [].
Proof.
  split; [reflexivity|]. split; [reflexivity|]. split.
  - exact (negative_window_singletons UTC sampleLog (Finite (-1)) (Finite 2)
             eq_refl).
  - exact (negative_window_singletons UTC sampleLog NaN (Finite 2) eq_refl).
Defined.

Lemma unreachable_minimum_empty_witness :
  num_geb (Int (Z.of_nat (length (parseLogEntries UTC sampleLog)))) NaN = false
  /\ num_geb (Int (Z.of_nat (length (parseLogEntries UTC sampleLog)))) (Finite 7)
     = false
  /\ analyzeLogPatterns UTC sampleLog (Finite 10000) NaN = Normal []
  /\ analyzeLogPatterns UTC sampleLog PosInf (Finite 7) = Normal [].
Proof.
  split; [reflexivity|]. split; [reflexivity|]. split.
  - exact (unreachable_minimum_empty UTC sampleLog (Finite 10000) NaN eq_refl).
  - exact (unreachable_minimum_empty UTC sampleLog PosInf (Finite 7) eq_refl).
Defined.

Lemma output_size_bounds_witness :
  analyzeLogPatterns UTC sampleLog (Finite 10000) (Finite 2)
  = Normal sampleLog_patterns
  /\ (length sampleLog_patterns <= 6)%nat.
Proof.
  assert (Hrun : analyzeLogPatterns UTC sampleLog (Finite 10000) (Finite 2)
                 = Normal sampleLog_patterns) by (vm_compute; reflexivity).
  split; [exact Hrun|].
  exact (proj1 (output_size_bounds UTC sampleLog (Finite 10000) (Finite 2)
                  sampleLog_patterns Hrun)).
Defined.

Lemma next_anchor_covers_tail_witness :
  let sorted := sort compareFn (parseLogEntries UTC sampleLog) in
  exists a b c more,
    run_at sorted (Finite 10000) 0 = a :: b :: [c]
    /\ run_at sorted (Finite 10000) 1 = b :: [c] ++ more
    /\ event b = js "NAVIGATE User navigated to dashboard".
Proof.
  intros sorted.
  set (a := {| timestamp := Some 1681569135123;
               event := js "LOGIN User logged in" |}).
  set (b := {| timestamp := Some 1681569137456;
               event := js "NAVIGATE User navigated to dashboard" |}).
  set (c := {| timestamp := Some 1681569139789;
               event := js "CLICK User clicked on settings" |}).
  assert (Hrun : run_at sorted (Finite 10000) 0 = a :: b :: [c])
    by (vm_compute; reflexivity).
  destruct (next_anchor_covers_tail UTC sampleLog (Finite 10000) (Finite 2)
              0 a b [c] Hrun) as (more & Hnext & _).
  exists a, b, c, more. split; [exact Hrun|]. split; [exact Hnext|].
  reflexivity.
Defined.

Lemma window_end_not_before_start_witness :
  analyzeLogPatterns UTC sampleLog (Finite 10000) (Finite 2)
  = Normal sampleLog_patterns
  /\ In sampleLog_pattern_0 sampleLog_patterns
  /\ isValidDate (startTime sampleLog_pattern_0)
  /\ exists s e, startTime sampleLog_pattern_0 = Some s
                 /\ endTime sampleLog_pattern_0 = Some e /\ s <= e.
Proof.
  assert (Hrun : analyzeLogPatterns UTC sampleLog (Finite 10000) (Finite 2)
                 = Normal sampleLog_patterns) by (vm_compute; reflexivity).
  assert (Hin : In sampleLog_pattern_0 sampleLog_patterns)
    by (left; reflexivity).
  assert (Hv : isValidDate (startTime sampleLog_pattern_0))
    by discriminate.
  split; [exact Hrun|]. split; [exact Hin|]. split; [exact Hv|].
  exact (window_end_not_before_start UTC sampleLog (Finite 10000) (Finite 2)
           sampleLog_patterns sampleLog_pattern_0 Hrun Hin Hv).
Defined.

Lemma windows_in_chronological_order_witness :
  Forall (fun e => isValidDate (timestamp e)) (parseLogEntries UTC sampleLog)
  /\ analyzeLogPatterns UTC sampleLog (Finite 10000) (Finite 2)
     = Normal sampleLog_patterns
  /\ StronglySorted starts_before sampleLog_patterns.
Proof.
  assert (Hv : Forall (fun e => isValidDate (timestamp e))
                 (parseLogEntries UTC sampleLog))
    by (vm_compute; repeat constructor; discriminate).
  assert (Hrun : analyzeLogPatterns UTC sampleLog (Finite 10000) (Finite 2)
                 = Normal sampleLog_patterns) by (vm_compute; reflexivity).
  split; [exact Hv|]. split; [exact Hrun|].
  exact (windows_in_chronological_order UTC sampleLog (Finite 10000) (Finite 2)
           sampleLog_patterns Hv Hrun).
Defined.

Lemma line_order_irrelevant_witness :
  Forall (fun e => isValidDate (timestamp e)) (parseLogEntries UTC sampleLog)
  /\ NoDup (valid_times (parseLogEntries UTC sampleLog))
  /\ Permutation (parseLogEntries UTC sampleLog)
       (parseLogEntries UTC sampleLog_reversed)
  /\ analyzeLogPatterns UTC sampleLog_reversed (Finite 10000) (Finite 2)
     = Normal sampleLog_patterns.
Proof.
  assert (Hv : Forall (fun e => isValidDate (timestamp e))
                 (parseLogEntries UTC sampleLog))
    by (vm_compute; repeat constructor; discriminate).
  assert (Hnd : NoDup (valid_times (parseLogEntries UTC sampleLog))).
  { vm_compute.
    repeat (constructor; [simpl; intuition discriminate|]). constructor. }
  assert (Hp : Permutation (parseLogEntries UTC sampleLog)
                 (parseLogEntries UTC sampleLog_reversed)).
  { replace (parseLogEntries UTC sampleLog_reversed)
      with (rev (parseLogEntries UTC sampleLog)) by (vm_compute; reflexivity).
    apply Permutation_rev. }
  split; [exact Hv|]. split; [exact Hnd|]. split; [exact Hp|].
  rewrite (line_order_irrelevant UTC sampleLog sampleLog_reversed
             (Finite 10000) (Finite 2) Hv Hnd Hp).
  vm_compute. reflexivity.
Defined.



(** C8 at a failing input.  The line with U+0000 where the format has
    the [.] matches [logRegex], and V8 reads its timestamp as a local
    time: the same content gives other records, and other windows, when
    the time zone of the process is another one. *)
Theorem results_depend_on_time_zone :
  string_match (js "2023-04-15T14:32:15" ++ [0%N] ++ js "123Z LOGIN") logRegex
  <> None
  /\ parseLogEntries UTC zonedLog
     = [ {| timestamp := Some 1681569135000; event := js "LOGIN" |};
         {| timestamp := Some 1681569140000; event := js "CLICK" |} ]
  /\ parseLogEntries UTC_plus_1 zonedLog
     = [ {| timestamp := Some 1681565535000; event := js "LOGIN" |};
         {| timestamp := Some 1681569140000; event := js "CLICK" |} ]
  /\ analyzeLogPatterns UTC zonedLog (Finite 10000) (Finite 2)
     = Normal [ {| events := [js "LOGIN"; js "CLICK"];
                   startTime := Some 1681569135000;
                   endTime := Some 1681569140000 |} ]
  /\ analyzeLogPatterns UTC_plus_1 zonedLog (Finite 10000) (Finite 2)
     = Normal [].
Proof. vm_compute. repeat split; try reflexivity. discriminate. Qed.

Lemma sorted_records_keep_parse_order_witness :
  Forall (fun e => isValidDate (timestamp e)) (parseLogEntries UTC twinLog)
  /\ filter (has_time 1681569135123)
       (sort compareFn (parseLogEntries UTC twinLog))
     = [ {| timestamp := Some 1681569135123; event := js "LOGIN" |};
         {| timestamp := Some 1681569135123; event := js "NAVIGATE" |} ].
Proof.
  assert (Hv : Forall (fun e => isValidDate (timestamp e))
                 (parseLogEntries UTC twinLog))
    by (vm_compute; repeat constructor; discriminate).
  split; [exact Hv|].
  rewrite (sorted_records_keep_parse_order UTC twinLog 1681569135123 Hv).
  vm_compute. reflexivity.
Defined.

(* ================================================================== *)
(** * The time zone of the process *)
(* ================================================================== *)

(** Only a string with U+0000 at index 19 is read as a local time. *)
Lemma Date_new_zone (zone1 zone2 : TimeZone) (s : jsstring) :
  nth_error s 19 <> Some 0%N -> Date_new zone1 s = Date_new zone2 s.
Proof.
  intros H. unfold Date_new.
  destruct (Nat.eqb (length s) 24) eqn:Hlen; [|reflexivity].
  apply Nat.eqb_eq in Hlen.
  assert (Hlit : N.eqb (nth 19 s 0%N) 0%N = false).
  { destruct (nth_error s 19) as [c|] eqn:E.
    - rewrite (nth_error_nth s 19 0%N E). apply N.eqb_neq.
      intros ->. now apply H.
    - apply nth_error_None in E. lia. }
  cbv zeta. rewrite Hlit. reflexivity.
Qed.

Lemma records_of_zone (zone1 zone2 : TimeZone) (line : jsstring) :
  nth_error line 19 <> Some 0%N ->
  records_of zone1 line = records_of zone2 line.
Proof.
  intros H. unfold records_of, line_record.
  destruct (well_formed_line line); [|reflexivity].
  rewrite (Date_new_zone zone1 zone2); [reflexivity|].
  now rewrite nth_error_firstn.
Qed.

(** X20.  The results do not depend on the time zone of the process
    when no line of the content has U+0000 at index 19, where a
    timestamp has the [.] before its milliseconds: two calls on such a
    content give the same records and the same windows, whatever the
    time zone in which each of them runs. *)
Theorem results_independent_of_time_zone
    (zone1 zone2 : TimeZone) (logContent : jsstring)
    (timeWindowMs minSequenceLength : number) :
  Forall (fun line => nth_error line 19 <> Some 0%N)
    (split 10%N logContent) ->
  parseLogEntries zone1 logContent = parseLogEntries zone2 logContent
  /\ analyzeLogPatterns zone1 logContent timeWindowMs minSequenceLength
     = analyzeLogPatterns zone2 logContent timeWindowMs minSequenceLength.
Proof.
  intros H.
  assert (Hparse : parseLogEntries zone1 logContent
                   = parseLogEntries zone2 logContent).
  { rewrite !parseLogEntries_lines.
    induction H as [|line lines Hline _ IH]; [reflexivity|].
    cbn [flat_map]. now rewrite IH, (records_of_zone zone1 zone2 line Hline). }
  split; [exact Hparse|].
  unfold analyzeLogPatterns. now rewrite Hparse.
Qed.

Lemma results_independent_of_time_zone_witness :
  Forall (fun line => nth_error line 19 <> Some 0%N) (split 10%N sampleLog)
  /\ parseLogEntries UTC_plus_1 sampleLog = parseLogEntries UTC sampleLog
  /\ analyzeLogPatterns UTC_plus_1 sampleLog (Finite 10000) (Finite 2)
     = Normal sampleLog_patterns.
Proof.
  assert (H : Forall (fun line => nth_error line 19 <> Some 0%N)
                (split 10%N sampleLog))
    by (vm_compute; repeat constructor; discriminate).
  destruct (results_independent_of_time_zone UTC_plus_1 UTC sampleLog
              (Finite 10000) (Finite 2) H) as (Hparse & Hrun).
  split; [exact H|]. split; [exact Hparse|].
  rewrite Hrun. vm_compute. reflexivity.
Defined.

(* ================================================================== *)
(** * The API client: retries *)
(* ================================================================== *)

(** The closed form of one call of [makeRequest]: the requests and the
    waits it makes, and its outcome. *)
Lemma makeRequest_closed_form {Data : Type} (token : option jsstring)
    (method endpoint : jsstring) (data : option Data)
    (replies : nat -> Settled (AxiosResponse Data)) :
  let config := {| method := method; url := endpoint; data := data;
                   headers := request_headers token |} in
  let n := requests_made replies in
  makeRequest token method endpoint data replies
  = (flat_map (fun k => [Request config;
                         SetTimeout (delay_after (replies k))])
       (seq 0 (n - 1))
     ++ [Request config],
     settle (replies (n - 1)%nat)).
Proof.
  intros config n. unfold n, requests_made, makeRequest, is_final.
  fold config. cbn [request_loop MAX_RETRIES Nat.ltb Nat.leb Nat.eqb Nat.sub].
  destruct (replies 0%nat) as [r0|e0] eqn:E0;
    [destruct (num_eqb (status r0) (Finite 429))|];
    cbn [negb]; try reflexivity;
    (destruct (replies 1%nat) as [r1|e1] eqn:E1;
     [destruct (num_eqb (status r1) (Finite 429))|];
     cbn [negb]; cbn [Nat.sub seq flat_map app];
     rewrite ?E0; try reflexivity;
     (destruct (replies 2%nat) as [r2|e2] eqn:E2;
      [destruct (num_eqb (status r2) (Finite 429))|];
      cbn [Nat.sub seq flat_map app];
      rewrite ?E0, ?E1, ?E2; reflexivity)).
Qed.

(** X16.  The outcome of [makeRequest] is the reply to the last request
    it made, returned when fulfilled and thrown when rejected: the call
    stops at the first reply that is a response other than a rate
    limit, and otherwise at the third reply.  The loop never runs out
    of steps and its closing [throw] is never reached. *)
Theorem makeRequest_outcome {Data : Type} (token : option jsstring)
    (method endpoint : jsstring) (data : option Data)
    (replies : nat -> Settled (AxiosResponse Data)) :
  let n := requests_made replies in
  snd (makeRequest token method endpoint data replies)
  = settle (replies (n - 1)%nat)
  /\ (1 <= n <= MAX_RETRIES)%nat
  /\ (forall k, (k < n - 1)%nat -> is_final (replies k) = false)
  /\ ((n < MAX_RETRIES)%nat -> is_final (replies (n - 1)%nat) = true).
Proof.
  intros n. rewrite makeRequest_closed_form. split; [reflexivity|].
  unfold n, requests_made, MAX_RETRIES.
  destruct (is_final (replies 0%nat)) eqn:E0;
    [|destruct (is_final (replies 1%nat)) eqn:E1]; cbn [Nat.sub].
  all: repeat split; try lia; try (intros; assumption); try (intros; lia);
    intros k Hk;
    assert (Hk' : k = 0%nat \/ k = 1%nat) by lia;
    destruct Hk' as [->| ->]; (assumption || lia).
Qed.

(** X17.  [makeRequest] makes between one and [MAX_RETRIES] requests,
    all with the same method, endpoint, body and headers; it waits
    after every request but the last, 60000 ms after a rate-limit
    response and 1000 ms after a rejection, so at most 120000 ms in
    all. *)
Theorem makeRequest_effects {Data : Type} (token : option jsstring)
    (method endpoint : jsstring) (data : option Data)
    (replies : nat -> Settled (AxiosResponse Data)) :
  let config := {| method := method; url := endpoint; data := data;
                   headers := request_headers token |} in
  let n := requests_made replies in
  let effects := fst (makeRequest token method endpoint data replies) in
  filter is_request effects = repeat (Request config) n
  /\ timeouts effects = map (fun k => delay_after (replies k)) (seq 0 (n - 1))
  /\ last effects (SetTimeout 0) = Request config
  /\ fold_right Z.add 0 (timeouts effects) <= 120000.
Proof.
  intros config n effects. unfold effects.
  rewrite makeRequest_closed_form. fold config. cbn [fst].
  unfold n, requests_made.
  destruct (is_final (replies 0%nat));
    [|destruct (is_final (replies 1%nat))];
    cbn [Nat.sub seq flat_map app map filter is_request repeat last
         timeouts fold_right];
    repeat split;
    destruct (replies 0%nat), (replies 1%nat);
    unfold delay_after, RATE_LIMIT_WINDOW; lia.
Qed.

(** X18.  After a successful [authenticate] the stored token is the
    returned one, and every request of a later [makeRequest] carries it
    as [Authorization: Bearer <token>] and no other header. *)
Theorem authenticated_requests_carry_token {Data : Type}
    (token_of : Data -> option (option jsstring))
    (token token' : option jsstring) (username password t : jsstring)
    (role : UserRole) (reply : Settled (AxiosResponse Data))
    (effects : list (Effect Data))
    (method endpoint : jsstring) (data : option Data)
    (replies : nat -> Settled (AxiosResponse Data))
    (config : RequestConfig Data) :
  authenticate token_of token username password role reply
  = (effects, token', Returned t) ->
  In (Request config) (fst (makeRequest token' method endpoint data replies)) ->
  token' = Some t
  /\ t <> []
  /\ headers config = [(js "Authorization", js "Bearer " ++ t)].
Proof.
  intros Hauth Hin. unfold authenticate in Hauth.
  destruct reply as [response|reason]; [|discriminate].
  destruct (token_of (response_data response)) as [[[|c s]|]|] eqn:Et;
    try discriminate.
  injection Hauth as _ <- <-.
  rewrite makeRequest_closed_form in Hin. cbn [fst] in Hin.
  split; [reflexivity|]. split; [discriminate|].
  apply in_app_or in Hin. destruct Hin as [Hin|[Hin|[]]].
  - apply in_flat_map in Hin. destruct Hin as (k & _ & [Hin|[Hin|[]]]);
      [|discriminate]. now injection Hin as <-.
  - now injection Hin as <-.
Qed.

(** X19.  The three ways in which [authenticate] fails.  When the body
    of the response has no token, or an empty one, the call throws
    'Authentication failed: No token received' after having overwritten
    the stored token with what it received: whatever token the client
    held before, the requests of a later [makeRequest] carry no header.
    When the response has no body ([response.data] is [null] or
    [undefined]) the read of the token throws a [TypeError] before the
    assignment, and when the login is rejected the reason is thrown: in
    both cases the stored token stays as it was. *)
Theorem failed_authenticate_drops_token {Data : Type}
    (token_of : Data -> option (option jsstring))
    (token received : option jsstring) (username password : jsstring)
    (role : UserRole) (response : AxiosResponse Data) (reason : Thrown)
    (method endpoint : jsstring) (data : option Data)
    (replies : nat -> Settled (AxiosResponse Data))
    (config : RequestConfig Data) :
  token_of (response_data response) = Some received ->
  truthy received = false ->
  let '(_, token', outcome) :=
    authenticate token_of token username password role (Fulfilled response)
  in
  outcome = Threw (JsError (js "Authentication failed: No token received"))
  /\ token' = received
  /\ (In (Request config)
        (fst (makeRequest token' method endpoint data replies)) ->
      headers config = [])
  /\ (forall response' : AxiosResponse Data,
        token_of (response_data response') = None ->
        authenticate token_of token username password role
          (Fulfilled response')
        = ([Post (js "/auth/login") username password role], token,
           Threw JsTypeError))
  /\ authenticate token_of token username password role (Rejected reason)
     = ([Post (js "/auth/login") username password role], token,
        Threw reason).
Proof.
  intros Hbody Hfalsy.
  assert (Hthrows :
            authenticate token_of token username password role
              (Fulfilled response)
            = ([Post (js "/auth/login") username password role], received,
               Threw (JsError
                        (js "Authentication failed: No token received")))).
  { unfold authenticate. rewrite Hbody.
    destruct received as [[|c s]|]; [reflexivity|discriminate|reflexivity]. }
  rewrite Hthrows.
  split; [reflexivity|]. split; [reflexivity|]. split; [|split].
  - intros Hin.
    rewrite makeRequest_closed_form in Hin. cbn [fst] in Hin.
    assert (Hh : request_headers received = [])
      by (destruct received as [[|c s]|];
          [reflexivity|discriminate|reflexivity]).
    rewrite Hh in Hin.
    apply in_app_or in Hin. destruct Hin as [Hin|[Hin|[]]].
    + apply in_flat_map in Hin.
      destruct Hin as (k & _ & [Hin|[Hin|[]]]); [|discriminate].
      now injection Hin as <-.
    + now injection Hin as <-.
  - intros response' Hnull. unfold authenticate. now rewrite Hnull.
  - reflexivity.
Qed.

Lemma authenticated_requests_carry_token_witness :
  let reply := Fulfilled {| status := Finite 200;
                            response_data := Some (js "valid.jwt.token") |} in
  let config := {| method := js "GET"; url := js "admin/users";
                   data := None;
                   headers := [(js "Authorization",
                                js "Bearer valid.jwt.token")] |} in
  let replies := fun _ : nat =>
                   Fulfilled {| status := Finite 200;
                                response_data := @None jsstring |} in
  authenticate (fun d => Some d) None (js "admin") (js "secure_password")
    admin reply
  = ([Post (js "/auth/login") (js "admin") (js "secure_password") admin],
     Some (js "valid.jwt.token"), Returned (js "valid.jwt.token"))
  /\ In (Request config)
       (fst (makeRequest (Some (js "valid.jwt.token")) (js "GET")
               (js "admin/users") None replies))
  /\ headers config = [(js "Authorization", js "Bearer " ++ js "valid.jwt.token")].
Proof.
  intros reply config replies.
  assert (Hauth : authenticate (fun d => Some d) None (js "admin")
                    (js "secure_password") admin reply
                  = ([Post (js "/auth/login") (js "admin")
                        (js "secure_password") admin],
                     Some (js "valid.jwt.token"),
                     Returned (js "valid.jwt.token"))) by reflexivity.
  assert (Hin : In (Request config)
                  (fst (makeRequest (Some (js "valid.jwt.token")) (js "GET")
                          (js "admin/users") None replies)))
    by (left; reflexivity).
  split; [exact Hauth|]. split; [exact Hin|].
  exact (proj2 (proj2 (authenticated_requests_carry_token (fun d => Some d)
                         None _ _ _ _ _ _ _ _ _ _ replies config
                         Hauth Hin))).
Defined.

(** A login whose response has a body without token, and one whose
    response has no body, for a client that holds a token. *)
Lemma failed_authenticate_drops_token_witness :
  let no_token := {| status := Finite 200;
                     response_data := Some (@None jsstring) |} in
  let no_body := {| status := Finite 204;
                    response_data := @None (option jsstring) |} in
  let replies := fun _ : nat => Fulfilled no_token in
  let config := {| method := js "GET"; url := js "users";
                   data := @None (option (option jsstring));
                   headers := [] |} in
  response_data no_token = Some None
  /\ truthy None = false
  /\ authenticate (fun d => d) (Some (js "old.token")) (js "admin")
       (js "secure_password") admin (Fulfilled no_token)
     = ([Post (js "/auth/login") (js "admin") (js "secure_password") admin],
        None,
        Threw (JsError (js "Authentication failed: No token received")))
  /\ (In (Request config)
        (fst (makeRequest None (js "GET") (js "users") None replies)) ->
      headers config = [])
  /\ authenticate (fun d => d) (Some (js "old.token")) (js "admin")
       (js "secure_password") admin (Fulfilled no_body)
     = ([Post (js "/auth/login") (js "admin") (js "secure_password") admin],
        Some (js "old.token"), Threw JsTypeError).
Proof.
  intros no_token no_body replies config.
  pose proof (failed_authenticate_drops_token (fun d => d)
                (Some (js "old.token")) None (js "admin")
                (js "secure_password") admin no_token
                (JsError (js "Invalid credentials"))
                (js "GET") (js "users") None replies config
                eq_refl eq_refl) as H.
  cbn beta iota zeta delta [authenticate response_data no_token] in H.
  destruct H as (_ & _ & Hheaders & Hbody & _).
  split; [reflexivity|]. split; [reflexivity|]. split; [reflexivity|].
  split; [exact Hheaders|].
  exact (Hbody no_body eq_refl).
Defined.
